(** * A parser-combinator library in TypeScript, verified in Rocq

    The development follows [combinators.ts] (result model, [Parser] and the
    structural and functional combinators) and [simple.ts] (the leaf parsers
    [Match], [Item], [Identifier] and the character classifiers).

    - JavaScript values are an inductive type [JsVal]; a tuple is an array.
    - A parse record is a Rocq record. A property that is missing and a
      property that holds [undefined] are identified: the combinators read
      records by destructuring only, where both give [undefined].
    - [parse] runs in a small monad that threads the console (the only
      state a parser touches, through [Inspect]) and can fail to return:
      the [while (true)] loop of [ZeroOrMore] is run with fuel, and [None]
      stands for a call that has not returned within the fuel. *)

From Stdlib Require Import String Ascii List ZArith Lia Bool Arith.
Import ListNotations.
Open Scope string_scope.
Set Warnings "-register-all".

(** ** Result model *)

Inductive Result : Type :=
| Ok
| Error.

(** Values a parser can produce. Numbers are the integers among the
    JavaScript numbers. *)
Inductive JsVal : Type :=
| VUndefined
| VNull
| VBool (b : bool)
| VNum (n : Z)
| VStr (s : string)
| VArr (elems : list JsVal).

Record ParseResult : Type := mkParseResult {
  state : Result;
  remainder : string;
  value : JsVal;
  error : option string
}.

(** [v !== undefined] *)
Definition is_defined (v : JsVal) : bool :=
  match v with
  | VUndefined => false
  | _ => true
  end.

(** JavaScript truthiness, as used by [value || null]. *)
Definition truthy (v : JsVal) : bool :=
  match v with
  | VUndefined => false
  | VNull => false
  | VBool b => b
  | VNum n => negb (Z.eqb n 0)
  | VStr s => negb (String.eqb s "")
  | VArr _ => true
  end.

(** [a || b] *)
Definition js_or (a b : JsVal) : JsVal :=
  if truthy a then a else b.

(** The test every inspecting combinator makes on a sub-parser's record:
    [state == Result.Ok && value !== undefined]. *)
Definition ok_defined (r : ParseResult) : bool :=
  match state r with
  | Ok => is_defined (value r)
  | Error => false
  end.

(** ** Strings *)

(** [s.slice(n)] for a non-negative [n]. *)
Fixpoint slice_from (n : nat) (s : string) : string :=
  match n, s with
  | O, _ => s
  | S _, EmptyString => EmptyString
  | S n', String _ s' => slice_from n' s'
  end.

(** [s.slice(0, n)] for a non-negative [n]. *)
Fixpoint slice_to (n : nat) (s : string) : string :=
  match n, s with
  | O, _ => EmptyString
  | S _, EmptyString => EmptyString
  | S n', String a s' => String a (slice_to n' s')
  end.

(** [s.charAt(0)] *)
Definition charAt0 (s : string) : string :=
  match s with
  | EmptyString => EmptyString
  | String a _ => String a EmptyString
  end.

(** [s[i]]: a one-character string, or [None] for [undefined]. *)
Fixpoint at_index (s : string) (i : nat) : option string :=
  match s, i with
  | EmptyString, _ => None
  | String a _, O => Some (String a EmptyString)
  | String _ s', S i' => at_index s' i'
  end.

(** [ch.codePointAt(0)] *)
Definition codePointAt0 (ch : string) : option nat :=
  match ch with
  | EmptyString => None
  | String a _ => Some (nat_of_ascii a)
  end.

(** ** The effects of [parse]: console output and non-return *)

Definition Console : Type := list ParseResult.

Definition Eff (A : Type) : Type := Console -> option (A * Console).

Definition ret {A : Type} (a : A) : Eff A :=
  fun c => Some (a, c).

Definition bind {A B : Type} (m : Eff A) (k : A -> Eff B) : Eff B :=
  fun c =>
    match m c with
    | Some (a, c') => k a c'
    | None => None
    end.

Definition console_log (r : ParseResult) : Eff unit :=
  fun c => Some (tt, (c ++ [r])%list).

Definition out_of_fuel {A : Type} : Eff A :=
  fun _ => None.

Notation "x <- m ;; k" := (bind m (fun x => k))
  (at level 61, m at next level, right associativity).

(** What a [parse] method is: input in, record out, with effects. *)
Definition ParseFn : Type := string -> Eff ParseResult.

(** ** Leaf parsers ([simple.ts]) *)

Definition Match_parse (literal : string) (input : string) : ParseResult :=
  let next := slice_to (String.length literal) input in
  let remainder := slice_from (String.length literal) input in
  if String.eqb next literal then
    mkParseResult Ok remainder (VStr literal) None
  else
    mkParseResult Error input VUndefined (Some "Couldn't match").

Definition Item_parse (input : string) : ParseResult :=
  if Nat.eqb (String.length input) 0 then
    mkParseResult Error input VUndefined
      (Some "Couldn't retrieve a single item, EOI")
  else
    mkParseResult Ok (slice_from 1 input) (VStr (charAt0 input)) None.

Definition isAlphabetic (ch : option string) : bool :=
  match ch with
  | None => false
  | Some ch =>
      match codePointAt0 ch with
      | None => false
      | Some n =>
          ((65 <=? n) && (n <? 91) || (97 <=? n) && (n <? 123))%nat
      end
  end.

Definition isNumeric (ch : option string) : bool :=
  match ch with
  | None => false
  | Some ch => String.leb "0" ch && String.leb ch "9"
  end.

Definition isAlphanumeric (ch : option string) : bool :=
  isAlphabetic ch || isNumeric ch.

(** [input[i] == "-"] *)
Definition is_joiner (ch : option string) : bool :=
  match ch with
  | None => false
  | Some ch => String.eqb ch "-"
  end.

(** The [for] loop of [Identifier.parse]: [i] runs from its start value up
    to [input.length], [c] counts; [steps] bounds the iterations left. *)
Fixpoint Identifier_loop (input : string) (steps i c : nat) : nat :=
  match steps with
  | O => c
  | S steps' =>
      if (i <? String.length input)%nat then
        if isAlphanumeric (at_index input i)
           || is_joiner (at_index input i)
        then Identifier_loop input steps' (S i) (S c)
        else c
      else c
  end.

Definition Identifier_parse (input : string) : ParseResult :=
  if negb (isAlphabetic (at_index input 0)) then
    mkParseResult Error input VUndefined (Some "Couldn't parse identifier")
  else
    let c := Identifier_loop input (String.length input) 1 1 in
    mkParseResult Ok (slice_from c input) (VStr (slice_to c input)) None.

(** ** Combinators ([combinators.ts])

    Each [parse] method is a function of the [parse] methods of its
    sub-parsers. *)

Definition Inspect_parse (P : ParseFn) : ParseFn :=
  fun input =>
    val <- P input ;;
    _ <- console_log val ;;
    ret val.

Definition Pair_parse (P1 P2 : ParseFn) : ParseFn :=
  fun input =>
    r1 <- P1 input ;;
    if ok_defined r1 then
      r2 <- P2 (remainder r1) ;;
      if ok_defined r2 then
        ret (mkParseResult Ok (remainder r2)
               (VArr [value r1; value r2]) None)
      else
        ret (mkParseResult Error input VUndefined (error r2))
    else
      ret (mkParseResult Error input VUndefined (error r1)).

Definition PMap_parse (P : ParseFn) (map_fn : JsVal -> JsVal) : ParseFn :=
  fun input =>
    r <- P input ;;
    if ok_defined r then
      ret (mkParseResult (state r) (remainder r) (map_fn (value r)) None)
    else
      ret (mkParseResult (state r) (remainder r) VUndefined (error r)).

(** [([result1, _]) => result1] and [([_, result2]) => result2]: a missing
    array element destructures to [undefined]. Both are only ever applied
    to the two-element array built by [Pair]. *)
Definition left_fn (v : JsVal) : JsVal :=
  match v with
  | VArr (result1 :: _) => result1
  | _ => VUndefined
  end.

Definition right_fn (v : JsVal) : JsVal :=
  match v with
  | VArr (_ :: result2 :: _) => result2
  | _ => VUndefined
  end.

Definition Left_parse (P1 P2 : ParseFn) : ParseFn :=
  PMap_parse (Pair_parse P1 P2) left_fn.

Definition Right_parse (P1 P2 : ParseFn) : ParseFn :=
  PMap_parse (Pair_parse P1 P2) right_fn.

(** The [while (true)] loop of [ZeroOrMore.parse]; [result] is the array
    being filled. The loop has no exit but the failure of [P]. *)
Fixpoint ZeroOrMore_loop (P : ParseFn) (fuel : nat)
    (input : string) (result : list JsVal) : Eff ParseResult :=
  match fuel with
  | O => out_of_fuel
  | S fuel' =>
      r <- P input ;;
      if ok_defined r then
        ZeroOrMore_loop P fuel' (remainder r) (result ++ [value r])%list
      else
        ret (mkParseResult Ok input (VArr result) None)
  end.

Definition ZeroOrMore_parse (fuel : nat) (P : ParseFn) : ParseFn :=
  fun input => ZeroOrMore_loop P fuel input [].

(** [([head, tail]) => { tail.unshift(head); return tail; }] *)
Definition unshift_fn (v : JsVal) : JsVal :=
  match v with
  | VArr [head; VArr tail] => VArr (head :: tail)
  | _ => VUndefined
  end.

Definition OneOrMore_parse (fuel : nat) (P : ParseFn) : ParseFn :=
  PMap_parse (Pair_parse P (ZeroOrMore_parse fuel P)) unshift_fn.

Definition Pred_parse (P : ParseFn) (pred_fn : JsVal -> bool) : ParseFn :=
  fun input =>
    r <- P input ;;
    if ok_defined r && pred_fn (value r) then
      ret (mkParseResult (state r) (remainder r) (value r) None)
    else
      ret (mkParseResult (state r) input VUndefined
             (Some "Failed predicate")).

Fixpoint Either_parse (Ps : list ParseFn) (input : string)
    : Eff ParseResult :=
  match Ps with
  | [] =>
      ret (mkParseResult Error input VUndefined
             (Some "No parser on the either succeed"))
  | P :: Ps' =>
      r <- P input ;;
      if ok_defined r then
        ret (mkParseResult (state r) (remainder r) (value r) None)
      else
        Either_parse Ps' input
  end.

(** [FixedEither.parse] has the body of [Either.parse]; the two classes
    differ in their TypeScript types only. *)
Definition FixedEither_parse (Ps : list ParseFn) : ParseFn :=
  Either_parse Ps.

Definition FlatMap_parse (P : ParseFn) (monad_fn : JsVal -> ParseFn)
    : ParseFn :=
  fun input =>
    r <- P input ;;
    if ok_defined r then
      monad_fn (value r) (remainder r)
    else
      ret (mkParseResult (state r) (remainder r) VUndefined (error r)).

Definition Optional_parse (P : ParseFn) : ParseFn :=
  fun input =>
    r <- P input ;;
    ret (mkParseResult Ok (remainder r) (js_or (value r) VNull) None).

Fixpoint Sequence_parse (Ps : list ParseFn) (input : string)
    : Eff ParseResult :=
  match Ps with
  | [] => ret (mkParseResult Ok input VNull None)
  | P :: Ps' =>
      r <- P input ;;
      let input := remainder r in
      match state r with
      | Error =>
          ret (mkParseResult (state r) input VUndefined
                 (Some "Couldn't fulfill sequence of parsers"))
      | Ok => Sequence_parse Ps' input
      end
  end.

(** ** Parser objects

    A parser is a tree of combinator nodes. [UserParser] is a subclass of
    the abstract class written outside the library, with a pure and total
    [parse] method. *)

Inductive Parser : Type :=
| UserParser (parse_fn : string -> ParseResult)
| Match (literal : string)
| Item
| Identifier
| Inspect (parser : Parser)
| Pair (parser1 parser2 : Parser)
| PMap (parser : Parser) (map_fn : JsVal -> JsVal)
| Left (parser1 parser2 : Parser)
| Right (parser1 parser2 : Parser)
| ZeroOrMore (parser : Parser)
| OneOrMore (parser : Parser)
| Pred (parser : Parser) (pred_fn : JsVal -> bool)
| Either (parsers : list Parser)
| FixedEither (parsers : list Parser)
| FlatMap (parser : Parser) (monad_fn : JsVal -> Parser)
| Optional (parser : Parser)
| Sequence (parsers : list Parser).

(** Method dispatch. The fuel is handed down unchanged and is spent only
    by the loops of [ZeroOrMore]. *)
Fixpoint parse (fuel : nat) (p : Parser) {struct p} : ParseFn :=
  match p with
  | UserParser parse_fn => fun input => ret (parse_fn input)
  | Match literal => fun input => ret (Match_parse literal input)
  | Item => fun input => ret (Item_parse input)
  | Identifier => fun input => ret (Identifier_parse input)
  | Inspect parser => Inspect_parse (parse fuel parser)
  | Pair parser1 parser2 =>
      Pair_parse (parse fuel parser1) (parse fuel parser2)
  | PMap parser map_fn => PMap_parse (parse fuel parser) map_fn
  | Left parser1 parser2 =>
      Left_parse (parse fuel parser1) (parse fuel parser2)
  | Right parser1 parser2 =>
      Right_parse (parse fuel parser1) (parse fuel parser2)
  | ZeroOrMore parser => ZeroOrMore_parse fuel (parse fuel parser)
  | OneOrMore parser => OneOrMore_parse fuel (parse fuel parser)
  | Pred parser pred_fn => Pred_parse (parse fuel parser) pred_fn
  | Either parsers => Either_parse (map (parse fuel) parsers)
  | FixedEither parsers => FixedEither_parse (map (parse fuel) parsers)
  | FlatMap parser monad_fn =>
      FlatMap_parse (parse fuel parser)
        (fun v => parse fuel (monad_fn v))
  | Optional parser => Optional_parse (parse fuel parser)
  | Sequence parsers => Sequence_parse (map (parse fuel) parsers)
  end.

(** ** Properties read off a parser tree *)

(** All members of a list of sub-parsers have a property. *)
Fixpoint all_parsers (Q : Parser -> Prop) (ps : list Parser) : Prop :=
  match ps with
  | [] => True
  | q :: qs => Q q /\ all_parsers Q qs
  end.

(** A parser assembled from the library's own classes only: no node is a
    class written by the user, also not in what a bind function returns. *)
Fixpoint LibraryBuilt (p : Parser) {struct p} : Prop :=
  match p with
  | UserParser _ => False
  | Match _ => True
  | Item => True
  | Identifier => True
  | Inspect parser => LibraryBuilt parser
  | Pair parser1 parser2 => LibraryBuilt parser1 /\ LibraryBuilt parser2
  | PMap parser _ => LibraryBuilt parser
  | Left parser1 parser2 => LibraryBuilt parser1 /\ LibraryBuilt parser2
  | Right parser1 parser2 => LibraryBuilt parser1 /\ LibraryBuilt parser2
  | ZeroOrMore parser => LibraryBuilt parser
  | OneOrMore parser => LibraryBuilt parser
  | Pred parser _ => LibraryBuilt parser
  | Either parsers =>
      (fix all (ps : list Parser) : Prop :=
         match ps with
         | [] => True
         | q :: qs => LibraryBuilt q /\ all qs
         end) parsers
  | FixedEither parsers =>
      (fix all (ps : list Parser) : Prop :=
         match ps with
         | [] => True
         | q :: qs => LibraryBuilt q /\ all qs
         end) parsers
  | FlatMap parser monad_fn =>
      LibraryBuilt parser /\ forall v, LibraryBuilt (monad_fn v)
  | Optional parser => LibraryBuilt parser
  | Sequence parsers =>
      (fix all (ps : list Parser) : Prop :=
         match ps with
         | [] => True
         | q :: qs => LibraryBuilt q /\ all qs
         end) parsers
  end.

(** [remainder] is a suffix of [input]. *)
Definition is_suffix (remainder input : string) : Prop :=
  exists consumed : string, input = consumed ++ remainder.

(** The invariant of the data model on one record. *)
Definition record_invariant (r : ParseResult) : bool :=
  match state r with
  | Ok =>
      is_defined (value r) &&
      match error r with None => true | Some _ => false end
  | Error =>
      match error r with None => false | Some _ => true end &&
      negb (is_defined (value r))
  end.

(** A run of [ZeroOrMore]'s loop body from [s]: the values of the
    consecutive records [P] returns with [Ok] and a defined value, up to the
    first record that is not one; [s'] is the input the run ends at. *)
Inductive Run (P : ParseFn)
  : string -> Console -> list JsVal -> string -> Console -> Prop :=
| Run_stop : forall s c r c',
    P s c = Some (r, c') ->
    ok_defined r = false ->
    Run P s c [] s c'
| Run_step : forall s c r c1 vs s' c',
    P s c = Some (r, c1) ->
    ok_defined r = true ->
    Run P (remainder r) c1 vs s' c' ->
    Run P s c (value r :: vs) s' c'.

(** The parsers of a list all return [Ok], each one started on the
    remainder and the console the one before left. *)
Inductive AllOk
  : list ParseFn -> string -> Console -> string -> Console -> Prop :=
| AllOk_nil : forall s c, AllOk [] s c s c
| AllOk_cons : forall P Ps s c r c1 s' c',
    P s c = Some (r, c1) ->
    state r = Ok ->
    AllOk Ps (remainder r) c1 s' c' ->
    AllOk (P :: Ps) s c s' c'.

(** [ch => ch === " "], the predicate of the [WhiteSpace] helper of the
    grammars. *)
Definition is_space (v : JsVal) : bool :=
  match v with
  | VStr s => String.eqb s " "
  | _ => false
  end.

(** [map_fn] of a parser that succeeds with [undefined] as its value. *)
Definition to_undefined (v : JsVal) : JsVal := VUndefined.

(** A computation is [framed] when its result does not depend on what the
    console holds, and the console it leaves is the one it found followed
    by what it printed. *)
Definition extend {A : Type} (c : Console) (x : option (A * Console))
    : option (A * Console) :=
  match x with
  | Some (a, out) => Some (a, (c ++ out)%list)
  | None => None
  end.

Definition framed {A : Type} (m : Eff A) : Prop :=
  forall c, m c = extend c (m []).

Definition framed_fn (P : ParseFn) : Prop :=
  forall input, framed (P input).

(** The remainder of every record a parser returns, failures as well as
    successes, is a suffix of its input. [Optional] turns a failure of its
    sub-parser into a success and keeps the remainder, so the same property
    of successes alone is not preserved by it. *)
Definition suffix_fn (P : ParseFn) : Prop :=
  forall s c r c', P s c = Some (r, c') -> is_suffix (remainder r) s.

(** A library-built parser with no [Pred] node, whose map functions
    return a defined value for a defined argument. *)
Fixpoint PredFree (p : Parser) {struct p} : Prop :=
  match p with
  | UserParser _ => False
  | Match _ => True
  | Item => True
  | Identifier => True
  | Inspect parser => PredFree parser
  | Pair parser1 parser2 => PredFree parser1 /\ PredFree parser2
  | PMap parser map_fn =>
      PredFree parser /\
      forall v, is_defined v = true -> is_defined (map_fn v) = true
  | Left parser1 parser2 => PredFree parser1 /\ PredFree parser2
  | Right parser1 parser2 => PredFree parser1 /\ PredFree parser2
  | ZeroOrMore parser => PredFree parser
  | OneOrMore parser => PredFree parser
  | Pred _ _ => False
  | Either parsers =>
      (fix all (ps : list Parser) : Prop :=
         match ps with
         | [] => True
         | q :: qs => PredFree q /\ all qs
         end) parsers
  | FixedEither parsers =>
      (fix all (ps : list Parser) : Prop :=
         match ps with
         | [] => True
         | q :: qs => PredFree q /\ all qs
         end) parsers
  | FlatMap parser monad_fn =>
      PredFree parser /\ forall v, PredFree (monad_fn v)
  | Optional parser => PredFree parser
  | Sequence parsers =>
      (fix all (ps : list Parser) : Prop :=
         match ps with
         | [] => True
         | q :: qs => PredFree q /\ all qs
         end) parsers
  end.

(** Every record a parser returns satisfies the record invariant. *)
Definition invariant_fn (P : ParseFn) : Prop :=
  forall s c r c', P s c = Some (r, c') -> record_invariant r = true.

(** [m'] returns whatever [m] returns. *)
Definition le_eff {A : Type} (m m' : Eff A) : Prop :=
  forall c x, m c = Some x -> m' c = Some x.

Definition le_fn (P P' : ParseFn) : Prop :=
  forall input, le_eff (P input) (P' input).

(** ** Helpers of the grammars ([json.ts], [pl0.ts], [main.ts]) *)

(** [(_) => null] *)
Definition to_null (v : JsVal) : JsVal := VNull.

(** [new Item().pred((ch) => ch === " ").map((_) => null)] *)
Definition WhiteSpace : Parser := PMap (Pred Item is_space) to_null.

(** [new ZeroOrMore(WhiteSpace)] *)
Definition WhiteSpaces : Parser := ZeroOrMore WhiteSpace.

(** The function [SpaceSurrounded(match)] of [json.ts]. *)
Definition SpaceSurrounded (match_ : string) : Parser :=
  Sequence [WhiteSpaces; Match match_; WhiteSpaces].

(** The one-character string holding the double quote. *)
Definition double_quote : string :=
  String (ascii_of_nat 34) EmptyString.

(** [(c) => c != delimiter]. Its operands are an [Item] value and a
    [Match] literal, both strings; on other values it is not modelled. *)
Definition differs_from (delimiter : JsVal) (c : JsVal) : bool :=
  match c, delimiter with
  | VStr a, VStr b => negb (String.eqb a b)
  | _, _ => true
  end.

(** [delimiter as string] *)
Definition as_string (v : JsVal) : string :=
  match v with
  | VStr s => s
  | _ => EmptyString
  end.

(** [elems.join("")] of an array of strings; [None] on other arrays, to
    which the grammar does not apply it. *)
Fixpoint join_strings (elems : list JsVal) : option string :=
  match elems with
  | [] => Some EmptyString
  | VStr s :: rest =>
      match join_strings rest with
      | Some t => Some (s ++ t)
      | None => None
      end
  | _ :: _ => None
  end.

(** [(value) => value.join("")] *)
Definition join_fn (v : JsVal) : JsVal :=
  match v with
  | VArr elems =>
      match join_strings elems with
      | Some s => VStr s
      | None => VUndefined
      end
  | _ => VUndefined
  end.

(** [QuotedString] of [JsonObject.parse]. *)
Definition QuotedString : Parser :=
  PMap
    (FlatMap (Either [Match double_quote; Match "'"])
       (fun delimiter =>
          Left (ZeroOrMore (Pred Item (differs_from delimiter)))
               (Match (as_string delimiter))))
    join_fn.

(** The body of [Pair.parse] that the source keeps in a comment:
    [parser1.flat_map(value1 => parser2.map(value2 => [value1, value2]))]. *)
Definition Pair_by_flat_map (parser1 parser2 : Parser) : Parser :=
  FlatMap parser1
    (fun value1 => PMap parser2 (fun value2 => VArr [value1; value2])).

Module Pl0.

(** [([a, [b, c]]) => [a, b, c]], applied to what the nested [Pair]
    built. *)
Definition flatten_fn (v : JsVal) : JsVal :=
  match v with
  | VArr [a; VArr [b; c]] => VArr [a; b; c]
  | _ => VUndefined
  end.

(** What [BinaryOp.parse] builds and runs. *)
Definition BinaryOp (operand op : Parser) : Parser :=
  PMap (Pair operand (Pair op operand)) flatten_fn.

(** [Surrounded]: the constructor takes [left] for a [right] that is not
    given; [parse] runs [Right(left, Left(middle, right))]. *)
Definition Surrounded (left_ middle : Parser) (right_ : option Parser)
    : Parser :=
  let closing :=
    match right_ with
    | Some given => given
    | None => left_
    end in
  Right left_ (Left middle closing).

(** The class [SpaceSurrounded] of [pl0.ts]. *)
Definition SpaceSurrounded (parser : Parser) : Parser :=
  Surrounded WhiteSpaces parser None.

End Pl0.

(** ** Notions the properties below are stated with *)

(** [n] spaces. *)
Fixpoint spaces (n : nat) : string :=
  match n with
  | O => EmptyString
  | S n' => String " " (spaces n')
  end.

(** No character of [body] is [d]. *)
Fixpoint free_of (d : ascii) (body : string) : Prop :=
  match body with
  | EmptyString => True
  | String a body' => a <> d /\ free_of d body'
  end.

(** The one-character strings of [s], as [Item] produces them. *)
Fixpoint chars_of (s : string) : list JsVal :=
  match s with
  | EmptyString => []
  | String a s' => VStr (String a EmptyString) :: chars_of s'
  end.

(** The test of the loop of [Identifier.parse] on [input[i]]. *)
Definition joinable (ch : option string) : bool :=
  isAlphanumeric ch || is_joiner ch.

(** The parsers of a list all return, on the same input, a record that is
    not [Ok] with a defined value; the console is threaded. *)
Inductive AllRejected
  : list ParseFn -> string -> Console -> Console -> Prop :=
| AllRejected_nil : forall s c, AllRejected [] s c c
| AllRejected_cons : forall P Ps s c r c1 c',
    P s c = Some (r, c1) ->
    ok_defined r = false ->
    AllRejected Ps s c1 c' ->
    AllRejected (P :: Ps) s c c'.

(** A record with outcome [Error] has the remainder reset to the input
    and no value. *)
Definition resets_fn (P : ParseFn) : Prop :=
  forall s c r c',
    P s c = Some (r, c') -> state r = Error ->
    remainder r = s /\ value r = VUndefined.

(** Parsers whose failures never show consumed input: every tree in which
    [FlatMap], [Sequence] and user-written classes occur only below a
    combinator that resets the remainder itself or never fails. *)
Fixpoint ResetsOnFailure (p : Parser) {struct p} : Prop :=
  match p with
  | UserParser _ => False
  | Match _ => True
  | Item => True
  | Identifier => True
  | Inspect parser => ResetsOnFailure parser
  | Pair _ _ => True
  | PMap parser _ => ResetsOnFailure parser
  | Left _ _ => True
  | Right _ _ => True
  | ZeroOrMore _ => True
  | OneOrMore _ => True
  | Pred _ _ => True
  | Either _ => True
  | FixedEither _ => True
  | FlatMap _ _ => False
  | Optional _ => True
  | Sequence _ => False
  end.

(** The call leaves the console as it found it. *)
Definition silent_fn (P : ParseFn) : Prop :=
  forall s c r c', P s c = Some (r, c') -> c' = c.

(** No node of the tree is an [Inspect]. *)
Fixpoint InspectFree (p : Parser) {struct p} : Prop :=
  match p with
  | UserParser _ => True
  | Match _ => True
  | Item => True
  | Identifier => True
  | Inspect _ => False
  | Pair parser1 parser2 => InspectFree parser1 /\ InspectFree parser2
  | PMap parser _ => InspectFree parser
  | Left parser1 parser2 => InspectFree parser1 /\ InspectFree parser2
  | Right parser1 parser2 => InspectFree parser1 /\ InspectFree parser2
  | ZeroOrMore parser => InspectFree parser
  | OneOrMore parser => InspectFree parser
  | Pred parser _ => InspectFree parser
  | Either parsers =>
      (fix all (ps : list Parser) : Prop :=
         match ps with
         | [] => True
         | q :: qs => InspectFree q /\ all qs
         end) parsers
  | FixedEither parsers =>
      (fix all (ps : list Parser) : Prop :=
         match ps with
         | [] => True
         | q :: qs => InspectFree q /\ all qs
         end) parsers
  | FlatMap parser monad_fn =>
      InspectFree parser /\ forall v, InspectFree (monad_fn v)
  | Optional parser => InspectFree parser
  | Sequence parsers =>
      (fix all (ps : list Parser) : Prop :=
         match ps with
         | [] => True
         | q :: qs => InspectFree q /\ all qs
         end) parsers
  end.

(** The remainder of every record with outcome [Ok] that a parser returns
    is a suffix of its input. *)
Definition success_suffix_fn (P : ParseFn) : Prop :=
  forall s c r c',
    P s c = Some (r, c') -> state r = Ok -> is_suffix (remainder r) s.

(** ** Induction over parser trees *)

Section Parser_induction.

Variable Q : Parser -> Prop.

Hypothesis H_UserParser : forall parse_fn, Q (UserParser parse_fn).
Hypothesis H_Match : forall literal, Q (Match literal).
Hypothesis H_Item : Q Item.
Hypothesis H_Identifier : Q Identifier.
Hypothesis H_Inspect : forall p, Q p -> Q (Inspect p).
Hypothesis H_Pair : forall p1 p2, Q p1 -> Q p2 -> Q (Pair p1 p2).
Hypothesis H_PMap : forall p f, Q p -> Q (PMap p f).
Hypothesis H_Left : forall p1 p2, Q p1 -> Q p2 -> Q (Left p1 p2).
Hypothesis H_Right : forall p1 p2, Q p1 -> Q p2 -> Q (Right p1 p2).
Hypothesis H_ZeroOrMore : forall p, Q p -> Q (ZeroOrMore p).
Hypothesis H_OneOrMore : forall p, Q p -> Q (OneOrMore p).
Hypothesis H_Pred : forall p f, Q p -> Q (Pred p f).
Hypothesis H_Either : forall ps, all_parsers Q ps -> Q (Either ps).
Hypothesis H_FixedEither :
  forall ps, all_parsers Q ps -> Q (FixedEither ps).
Hypothesis H_FlatMap :
  forall p f, Q p -> (forall v, Q (f v)) -> Q (FlatMap p f).
Hypothesis H_Optional : forall p, Q p -> Q (Optional p).
Hypothesis H_Sequence : forall ps, all_parsers Q ps -> Q (Sequence ps).

Fixpoint Parser_tree_ind (p : Parser) : Q p :=
  let fix each (ps : list Parser) : all_parsers Q ps :=
    match ps with
    | [] => I
    | q :: qs => conj (Parser_tree_ind q) (each qs)
    end in
  match p with
  | UserParser parse_fn => H_UserParser parse_fn
  | Match literal => H_Match literal
  | Item => H_Item
  | Identifier => H_Identifier
  | Inspect p' => H_Inspect p' (Parser_tree_ind p')
  | Pair p1 p2 => H_Pair p1 p2 (Parser_tree_ind p1) (Parser_tree_ind p2)
  | PMap p' f => H_PMap p' f (Parser_tree_ind p')
  | Left p1 p2 => H_Left p1 p2 (Parser_tree_ind p1) (Parser_tree_ind p2)
  | Right p1 p2 => H_Right p1 p2 (Parser_tree_ind p1) (Parser_tree_ind p2)
  | ZeroOrMore p' => H_ZeroOrMore p' (Parser_tree_ind p')
  | OneOrMore p' => H_OneOrMore p' (Parser_tree_ind p')
  | Pred p' f => H_Pred p' f (Parser_tree_ind p')
  | Either ps => H_Either ps (each ps)
  | FixedEither ps => H_FixedEither ps (each ps)
  | FlatMap p' f =>
      H_FlatMap p' f (Parser_tree_ind p') (fun v => Parser_tree_ind (f v))
  | Optional p' => H_Optional p' (Parser_tree_ind p')
  | Sequence ps => H_Sequence ps (each ps)
  end.

End Parser_induction.

(** ** The embedding on the repository's own examples *)

Example Pair_Hello_World :
  parse 0 (Pair (Match "Hello") Item) "Hello World" [] =
  Some (mkParseResult Ok "World" (VArr [VStr "Hello"; VStr " "]) None, []).
Proof. reflexivity. Qed.

Example WhiteSpaces_then_rest :
  parse 9 (ZeroOrMore (PMap (Pred Item is_space) (fun _ => VNull)))
    "  ab" [] =
  Some (mkParseResult Ok "ab" (VArr [VNull; VNull]) None, []).
Proof. reflexivity. Qed.

Example SpaceSurrounded_brace :
  parse 9
    (Sequence [ZeroOrMore (PMap (Pred Item is_space) (fun _ => VNull));
               Match "{";
               ZeroOrMore (PMap (Pred Item is_space) (fun _ => VNull))])
    " { x" [] =
  Some (mkParseResult Ok "x" VNull None, []).
Proof. reflexivity. Qed.

Example Identifier_with_joiner :
  parse 0 Identifier "ab-c1 d" [] =
  Some (mkParseResult Ok " d" (VStr "ab-c1") None, []).
Proof. reflexivity. Qed.

Example Inspect_prints_each_record :
  parse 9 (OneOrMore (Inspect Item)) "ab" [] =
  Some (mkParseResult Ok "" (VArr [VStr "a"; VStr "b"]) None,
        [mkParseResult Ok "b" (VStr "a") None;
         mkParseResult Ok "" (VStr "b") None;
         mkParseResult Error "" VUndefined
           (Some "Couldn't retrieve a single item, EOI")]).
Proof. reflexivity. Qed.

(** [Optional] keeps the remainder of a sub-parser that failed. *)
Example Optional_keeps_failed_remainder :
  parse 0
    (Optional
       (UserParser (fun _ => mkParseResult Error "zzz" VUndefined
                               (Some "no"))))
    "" [] =
  Some (mkParseResult Ok "zzz" VNull None, []).
Proof. reflexivity. Qed.

(** ** Reasoning about [Eff] *)

Lemma bind_Some {A B : Type} (m : Eff A) (k : A -> Eff B) c b c' :
  bind m k c = Some (b, c') <->
  exists a c1, m c = Some (a, c1) /\ k a c1 = Some (b, c').
Proof.
  unfold bind. split.
  - destruct (m c) as [[a c1]|]; [|discriminate].
    intros H. now exists a, c1.
  - intros (a & c1 & Hm & Hk). now rewrite Hm.
Qed.

Lemma bind_step {A B : Type} (m : Eff A) (k : A -> Eff B) c a c1 :
  m c = Some (a, c1) -> bind m k c = k a c1.
Proof. unfold bind. now intros ->. Qed.

Lemma ret_Some {A : Type} (a b : A) c c' :
  ret a c = Some (b, c') <-> a = b /\ c = c'.
Proof.
  unfold ret. split.
  - intros H. now inversion H.
  - now intros [-> ->].
Qed.

(** Inversion of a run that returned: splits binds, resolves returns. *)
Ltac eff_inv :=
  repeat match goal with
  | H : bind _ _ _ = Some _ |- _ =>
      apply bind_Some in H; destruct H as (? & ? & ? & H)
  | H : ret _ _ = Some _ |- _ =>
      apply ret_Some in H; destruct H as [? ?]; subst
  | H : console_log _ _ = Some _ |- _ =>
      unfold console_log in H; inversion H; subst; clear H
  | H : out_of_fuel _ = Some _ |- _ => discriminate H
  end.

(** ** More fuel changes no result *)

Lemma le_eff_refl {A : Type} (m : Eff A) : le_eff m m.
Proof. now intros c x. Qed.

Lemma le_eff_bind {A B : Type} (m m' : Eff A) (k k' : A -> Eff B) :
  le_eff m m' -> (forall a, le_eff (k a) (k' a)) ->
  le_eff (bind m k) (bind m' k').
Proof.
  intros Hm Hk c [b c'] H. apply bind_Some in H.
  destruct H as (a & c1 & H1 & H2).
  apply bind_Some. exists a, c1. split; [now apply Hm|now apply Hk].
Qed.

Ltac le_step :=
  repeat first
    [ apply le_eff_refl
    | apply le_eff_bind; [ now auto | intros ? ]
    | match goal with
      | |- le_eff (if ?b then _ else _) _ => destruct b
      | |- le_eff (match state ?r with _ => _ end) _ => destruct (state r)
      end ].

Section Fuel_combinators.

Variables P P' P1 P1' P2 P2' : ParseFn.
Hypothesis HP : le_fn P P'.
Hypothesis HP1 : le_fn P1 P1'.
Hypothesis HP2 : le_fn P2 P2'.

Lemma le_Inspect : le_fn (Inspect_parse P) (Inspect_parse P').
Proof. intros input. unfold Inspect_parse. le_step. Qed.

Lemma le_Pair : le_fn (Pair_parse P1 P2) (Pair_parse P1' P2').
Proof. intros input. unfold Pair_parse. le_step. Qed.

Lemma le_PMap map_fn : le_fn (PMap_parse P map_fn) (PMap_parse P' map_fn).
Proof. intros input. unfold PMap_parse. le_step. Qed.

Lemma le_ZeroOrMore_loop n :
  forall m input result,
    n <= m ->
    le_eff (ZeroOrMore_loop P n input result)
           (ZeroOrMore_loop P' m input result).
Proof.
  induction n as [|n IH]; intros m input result Hnm.
  - intros c x H. discriminate H.
  - destruct m as [|m]; [lia|]. simpl. le_step. apply IH. lia.
Qed.

Lemma le_ZeroOrMore n m :
  n <= m -> le_fn (ZeroOrMore_parse n P) (ZeroOrMore_parse m P').
Proof. intros Hnm input. now apply le_ZeroOrMore_loop. Qed.

Lemma le_Pred pred_fn :
  le_fn (Pred_parse P pred_fn) (Pred_parse P' pred_fn).
Proof. intros input. unfold Pred_parse. le_step. Qed.

Lemma le_FlatMap (K K' : JsVal -> ParseFn) :
  (forall v, le_fn (K v) (K' v)) ->
  le_fn (FlatMap_parse P K) (FlatMap_parse P' K').
Proof.
  intros HK input. unfold FlatMap_parse. le_step. apply HK.
Qed.

Lemma le_Optional : le_fn (Optional_parse P) (Optional_parse P').
Proof. intros input. unfold Optional_parse. le_step. Qed.

End Fuel_combinators.

Lemma le_Either Ps Ps' :
  Forall2 le_fn Ps Ps' -> le_fn (Either_parse Ps) (Either_parse Ps').
Proof.
  induction 1 as [|P P' Ps Ps' HP _ IH]; intros input; simpl.
  - apply le_eff_refl.
  - le_step. apply IH.
Qed.

Lemma le_Sequence Ps Ps' :
  Forall2 le_fn Ps Ps' -> le_fn (Sequence_parse Ps) (Sequence_parse Ps').
Proof.
  induction 1 as [|P P' Ps Ps' HP _ IH]; intros input; simpl.
  - apply le_eff_refl.
  - le_step. apply IH.
Qed.

Lemma all_parsers_Forall2 n m ps :
  all_parsers (fun p => le_fn (parse n p) (parse m p)) ps ->
  Forall2 le_fn (map (parse n) ps) (map (parse m) ps).
Proof.
  induction ps as [|q qs IH]; simpl.
  - constructor.
  - intros [Hq Hqs]. constructor; auto.
Qed.

(** A call that returns with some fuel returns the same with more: the
    fuel bounds the iterations of the loops and decides nothing else. *)
Lemma parse_fuel_monotone n m p :
  n <= m -> le_fn (parse n p) (parse m p).
Proof.
  intros Hnm. induction p using Parser_tree_ind; simpl.
  - intros input. apply le_eff_refl.
  - intros input. apply le_eff_refl.
  - intros input. apply le_eff_refl.
  - intros input. apply le_eff_refl.
  - now apply le_Inspect.
  - now apply le_Pair.
  - now apply le_PMap.
  - apply le_PMap. now apply le_Pair.
  - apply le_PMap. now apply le_Pair.
  - now apply le_ZeroOrMore.
  - apply le_PMap. apply le_Pair; [assumption|]. now apply le_ZeroOrMore.
  - now apply le_Pred.
  - apply le_Either. now apply all_parsers_Forall2.
  - apply le_Either. now apply all_parsers_Forall2.
  - now apply le_FlatMap.
  - now apply le_Optional.
  - apply le_Sequence. now apply all_parsers_Forall2.
Qed.

(** ** The console is only appended to *)

Lemma framed_ret {A : Type} (a : A) : framed (ret a).
Proof. intros c. unfold ret, extend. now rewrite app_nil_r. Qed.

Lemma framed_out_of_fuel {A : Type} : framed (@out_of_fuel A).
Proof. now intros c. Qed.

Lemma framed_console_log r : framed (console_log r).
Proof. now intros c. Qed.

Lemma framed_bind {A B : Type} (m : Eff A) (k : A -> Eff B) :
  framed m -> (forall a, framed (k a)) -> framed (bind m k).
Proof.
  intros Hm Hk c. unfold bind. rewrite (Hm c).
  destruct (m []) as [[a out]|]; simpl; [|reflexivity].
  rewrite (Hk a (c ++ out)%list), (Hk a out).
  destruct (k a []) as [[b out']|]; simpl; [|reflexivity].
  now rewrite app_assoc.
Qed.


Ltac framed_step :=
  repeat first
    [ apply framed_ret
    | apply framed_out_of_fuel
    | apply framed_console_log
    | apply framed_bind; [ now auto | intros ? ]
    | match goal with
      | |- framed (if ?b then _ else _) => destruct b
      | |- framed (match state ?r with _ => _ end) => destruct (state r)
      end ].

Section Framed_combinators.

Variables P P1 P2 : ParseFn.
Hypothesis HP : framed_fn P.
Hypothesis HP1 : framed_fn P1.
Hypothesis HP2 : framed_fn P2.

Lemma framed_Inspect : framed_fn (Inspect_parse P).
Proof. intros input. unfold Inspect_parse. framed_step. Qed.

Lemma framed_Pair : framed_fn (Pair_parse P1 P2).
Proof. intros input. unfold Pair_parse. framed_step. Qed.

Lemma framed_PMap map_fn : framed_fn (PMap_parse P map_fn).
Proof. intros input. unfold PMap_parse. framed_step. Qed.

Lemma framed_ZeroOrMore_loop fuel :
  forall input result, framed (ZeroOrMore_loop P fuel input result).
Proof.
  induction fuel as [|fuel IH]; intros input result; simpl.
  - apply framed_out_of_fuel.
  - framed_step. apply IH.
Qed.

Lemma framed_ZeroOrMore fuel : framed_fn (ZeroOrMore_parse fuel P).
Proof. intros input. apply framed_ZeroOrMore_loop. Qed.

Lemma framed_Pred pred_fn : framed_fn (Pred_parse P pred_fn).
Proof. intros input. unfold Pred_parse. framed_step. Qed.

Lemma framed_FlatMap (K : JsVal -> ParseFn) :
  (forall v, framed_fn (K v)) -> framed_fn (FlatMap_parse P K).
Proof.
  intros HK input. unfold FlatMap_parse. framed_step. apply HK.
Qed.

Lemma framed_Optional : framed_fn (Optional_parse P).
Proof. intros input. unfold Optional_parse. framed_step. Qed.

End Framed_combinators.

Lemma framed_Either Ps :
  Forall framed_fn Ps -> framed_fn (Either_parse Ps).
Proof.
  induction 1 as [|P Ps HP _ IH]; intros input; simpl.
  - apply framed_ret.
  - framed_step. apply IH.
Qed.

Lemma framed_Sequence Ps :
  Forall framed_fn Ps -> framed_fn (Sequence_parse Ps).
Proof.
  induction 1 as [|P Ps HP _ IH]; intros input; simpl.
  - apply framed_ret.
  - framed_step. apply IH.
Qed.

Lemma all_parsers_Forall (Q : Parser -> Prop) (R : ParseFn -> Prop)
    fuel ps :
  (forall p, Q p -> R (parse fuel p)) ->
  all_parsers Q ps -> Forall R (map (parse fuel) ps).
Proof.
  intros HQR. induction ps as [|q qs IH]; simpl.
  - constructor.
  - intros [Hq Hqs]. constructor; auto.
Qed.

Lemma framed_parse fuel p : framed_fn (parse fuel p).
Proof.
  induction p using Parser_tree_ind; simpl.
  - intros input. apply framed_ret.
  - intros input. apply framed_ret.
  - intros input. apply framed_ret.
  - intros input. apply framed_ret.
  - now apply framed_Inspect.
  - now apply framed_Pair.
  - now apply framed_PMap.
  - apply framed_PMap. now apply framed_Pair.
  - apply framed_PMap. now apply framed_Pair.
  - now apply framed_ZeroOrMore.
  - apply framed_PMap. apply framed_Pair; [assumption|].
    now apply framed_ZeroOrMore.
  - now apply framed_Pred.
  - apply framed_Either.
    eapply all_parsers_Forall; [|eassumption]. auto.
  - apply framed_Either.
    eapply all_parsers_Forall; [|eassumption]. auto.
  - now apply framed_FlatMap.
  - now apply framed_Optional.
  - apply framed_Sequence.
    eapply all_parsers_Forall; [|eassumption]. auto.
Qed.

(** The record a call returns does not depend on what the console holds:
    whatever has been printed before, and so also when the same parser is
    invoked again after a first call has printed, a call that returned the
    record [r] returns again, with the same record. *)
Theorem parse_twice_identical fuel (p : Parser) (s : string)
    (c c' : Console) (r : ParseResult) (c1 : Console) :
  parse fuel p s c = Some (r, c1) ->
  exists c2, parse fuel p s c' = Some (r, c2).
Proof.
  intros H.
  rewrite (framed_parse fuel p s c) in H.
  rewrite (framed_parse fuel p s c').
  destruct (parse fuel p s []) as [[r0 out]|]; simpl in *; [|discriminate].
  inversion H; subst. eauto.
Qed.

Lemma parse_twice_identical_witness :
  exists c2,
    parse 9 (OneOrMore (Inspect Item)) "ab"
      [mkParseResult Ok "b" (VStr "a") None] =
    Some (mkParseResult Ok "" (VArr [VStr "a"; VStr "b"]) None, c2).
Proof.
  apply (parse_twice_identical 9 (OneOrMore (Inspect Item)) "ab" []
           [mkParseResult Ok "b" (VStr "a") None]
           (mkParseResult Ok "" (VArr [VStr "a"; VStr "b"]) None)
           [mkParseResult Ok "b" (VStr "a") None;
            mkParseResult Ok "" (VStr "b") None;
            mkParseResult Error "" VUndefined
              (Some "Couldn't retrieve a single item, EOI")]).
  reflexivity.
Defined.

(** ** Suffixes *)

Lemma append_assoc (a b c : string) : (a ++ b) ++ c = a ++ (b ++ c).
Proof. induction a as [|x a IH]; simpl; [reflexivity|now rewrite IH]. Qed.

Lemma length_append (a b : string) :
  String.length (a ++ b) = String.length a + String.length b.
Proof. induction a as [|x a IH]; simpl; [reflexivity|now rewrite IH]. Qed.

Lemma slice_to_from (n : nat) (s : string) :
  s = slice_to n s ++ slice_from n s.
Proof.
  revert s. induction n as [|n IH]; intros s; [reflexivity|].
  destruct s as [|a s]; simpl; [reflexivity|]. now rewrite <- IH.
Qed.

Lemma is_suffix_refl s : is_suffix s s.
Proof. now exists EmptyString. Qed.

Lemma is_suffix_trans a b c :
  is_suffix a b -> is_suffix b c -> is_suffix a c.
Proof.
  intros [x ->] [y ->]. exists (y ++ x). now rewrite append_assoc.
Qed.

Lemma is_suffix_slice_from n s : is_suffix (slice_from n s) s.
Proof. exists (slice_to n s). apply slice_to_from. Qed.

Lemma is_suffix_length a b :
  is_suffix a b -> String.length a <= String.length b.
Proof. intros [x ->]. rewrite length_append. lia. Qed.

(** ** Every record: the remainder is a suffix of the input *)

(** Case analysis on the tests a [parse] method makes on a record. *)
Ltac eff_cases :=
  eff_inv;
  repeat (match goal with
          | H : (if ?b then _ else _) _ = Some _ |- _ =>
              destruct b eqn:?
          | H : (match state ?r with Ok => _ | Error => _ end) _ = Some _
            |- _ => destruct (state r) eqn:?
          end; eff_inv).

Create HintDb suffix.
#[local] Hint Resolve is_suffix_refl is_suffix_slice_from : suffix.

Lemma suffix_Match literal s :
  is_suffix (remainder (Match_parse literal s)) s.
Proof.
  unfold Match_parse.
  destruct (String.eqb _ literal); cbn [remainder]; auto with suffix.
Qed.

Lemma suffix_Item s : is_suffix (remainder (Item_parse s)) s.
Proof.
  unfold Item_parse.
  destruct (Nat.eqb _ 0); cbn [remainder]; auto with suffix.
Qed.

Lemma suffix_Identifier s : is_suffix (remainder (Identifier_parse s)) s.
Proof.
  unfold Identifier_parse.
  destruct (negb _); cbn [remainder]; auto with suffix.
Qed.

Section Suffix_combinators.

Variables P P1 P2 : ParseFn.
Hypothesis HP : suffix_fn P.
Hypothesis HP1 : suffix_fn P1.
Hypothesis HP2 : suffix_fn P2.

Lemma suffix_Inspect : suffix_fn (Inspect_parse P).
Proof.
  intros s c r c' H. unfold Inspect_parse in H. eff_cases. eauto.
Qed.

Lemma suffix_Pair : suffix_fn (Pair_parse P1 P2).
Proof.
  intros s c r c' H. unfold Pair_parse in H. eff_cases; simpl;
    auto with suffix.
  eapply is_suffix_trans; eauto.
Qed.

Lemma suffix_PMap map_fn : suffix_fn (PMap_parse P map_fn).
Proof.
  intros s c r c' H. unfold PMap_parse in H. eff_cases; simpl; eauto.
Qed.

Lemma suffix_ZeroOrMore_loop fuel :
  forall s result c r c',
    ZeroOrMore_loop P fuel s result c = Some (r, c') ->
    is_suffix (remainder r) s.
Proof.
  induction fuel as [|fuel IH]; intros s result c r c' H; simpl in H.
  - discriminate.
  - eff_inv.
    match goal with
    | H : (if ?b then _ else _) _ = Some _ |- _ => destruct b
    end.
    + eapply is_suffix_trans; [eapply IH; eassumption|eauto].
    + eff_inv. simpl. auto with suffix.
Qed.

Lemma suffix_ZeroOrMore fuel : suffix_fn (ZeroOrMore_parse fuel P).
Proof. intros s c r c' H. eapply suffix_ZeroOrMore_loop; eauto. Qed.

Lemma suffix_Pred pred_fn : suffix_fn (Pred_parse P pred_fn).
Proof.
  intros s c r c' H. unfold Pred_parse in H. eff_cases; simpl;
    eauto with suffix.
Qed.

Lemma suffix_FlatMap (K : JsVal -> ParseFn) :
  (forall v, suffix_fn (K v)) -> suffix_fn (FlatMap_parse P K).
Proof.
  intros HK s c r c' H. unfold FlatMap_parse in H.
  eff_inv.
  match goal with
  | H : (if ?b then _ else _) _ = Some _ |- _ => destruct b
  end.
  - eapply is_suffix_trans; [eapply HK; eassumption|eauto].
  - eff_inv. simpl. eauto.
Qed.

Lemma suffix_Optional : suffix_fn (Optional_parse P).
Proof.
  intros s c r c' H. unfold Optional_parse in H. eff_cases; simpl; eauto.
Qed.

End Suffix_combinators.

Lemma suffix_Either Ps : Forall suffix_fn Ps -> suffix_fn (Either_parse Ps).
Proof.
  induction 1 as [|P Ps HP _ IH]; intros s c r c' H; simpl in H.
  - eff_inv. simpl. auto with suffix.
  - eff_inv.
    match goal with
    | H : (if ?b then _ else _) _ = Some _ |- _ => destruct b
    end.
    + eff_inv. simpl. eauto.
    + eauto.
Qed.

Lemma suffix_Sequence Ps :
  Forall suffix_fn Ps -> suffix_fn (Sequence_parse Ps).
Proof.
  induction 1 as [|P Ps HP _ IH]; intros s c r c' H; simpl in H.
  - eff_inv. simpl. auto with suffix.
  - eff_inv.
    match goal with
    | H : (match state ?r with Ok => _ | Error => _ end) _ = Some _ |- _ =>
        destruct (state r)
    end.
    + eapply is_suffix_trans; [eapply IH; eassumption|eauto].
    + eff_inv. simpl. eauto.
Qed.

Lemma LibraryBuilt_Either ps :
  LibraryBuilt (Either ps) -> all_parsers LibraryBuilt ps.
Proof.
  induction ps as [|q qs IH]; simpl; [trivial|].
  intros [Hq Hqs]. split; [assumption|]. apply IH. exact Hqs.
Qed.

Lemma LibraryBuilt_FixedEither ps :
  LibraryBuilt (FixedEither ps) -> all_parsers LibraryBuilt ps.
Proof. exact (LibraryBuilt_Either ps). Qed.

Lemma LibraryBuilt_Sequence ps :
  LibraryBuilt (Sequence ps) -> all_parsers LibraryBuilt ps.
Proof. exact (LibraryBuilt_Either ps). Qed.

Lemma all_parsers_built (Q : Parser -> Prop) (R : ParseFn -> Prop)
    fuel ps :
  all_parsers (fun p => Q p -> R (parse fuel p)) ps ->
  all_parsers Q ps -> Forall R (map (parse fuel) ps).
Proof.
  induction ps as [|q qs IH]; simpl.
  - constructor.
  - intros [Hq Hqs] [Bq Bqs]. constructor; auto.
Qed.

Lemma suffix_parse fuel p : LibraryBuilt p -> suffix_fn (parse fuel p).
Proof.
  induction p using Parser_tree_ind; intros HB; simpl.
  - destruct HB.
  - intros s c r c' H. eff_inv. apply suffix_Match.
  - intros s c r c' H. eff_inv. apply suffix_Item.
  - intros s c r c' H. eff_inv. apply suffix_Identifier.
  - apply suffix_Inspect; auto.
  - destruct HB. apply suffix_Pair; auto.
  - apply suffix_PMap; auto.
  - destruct HB. apply suffix_PMap, suffix_Pair; auto.
  - destruct HB. apply suffix_PMap, suffix_Pair; auto.
  - apply suffix_ZeroOrMore; auto.
  - apply suffix_PMap, suffix_Pair; auto. apply suffix_ZeroOrMore; auto.
  - apply suffix_Pred; auto.
  - apply suffix_Either.
    eapply all_parsers_built; eauto using LibraryBuilt_Either.
  - apply suffix_Either.
    eapply all_parsers_built; eauto using LibraryBuilt_FixedEither.
  - destruct HB. apply suffix_FlatMap; auto.
  - apply suffix_Optional; auto.
  - apply suffix_Sequence.
    eapply all_parsers_built; eauto using LibraryBuilt_Sequence.
Qed.

(** ** The loop of [ZeroOrMore] *)

Lemma ZeroOrMore_loop_Run (P : ParseFn) s c vs s' c' :
  Run P s c vs s' c' ->
  forall fuel result,
    length vs < fuel ->
    ZeroOrMore_loop P fuel s result c =
    Some (mkParseResult Ok s' (VArr (result ++ vs)) None, c').
Proof.
  induction 1 as [s c r c' HP Hr | s c r c1 vs s' c' HP Hr _ IH];
    intros fuel result Hfuel;
    (destruct fuel as [|fuel]; [simpl in Hfuel; lia|]); simpl.
  - rewrite (bind_step _ _ _ _ _ HP), Hr. now rewrite app_nil_r.
  - rewrite (bind_step _ _ _ _ _ HP), Hr.
    rewrite IH by (simpl in Hfuel; lia).
    now rewrite <- app_assoc.
Qed.

Lemma Run_exists (P : ParseFn) (bound : nat) :
  (forall s c, String.length s <= bound -> P s c <> None) ->
  (forall s c r c1,
      String.length s <= bound ->
      P s c = Some (r, c1) -> ok_defined r = true ->
      String.length (remainder r) < String.length s) ->
  forall n s c,
    String.length s <= n -> String.length s <= bound ->
    exists vs s' c',
      Run P s c vs s' c' /\ length vs <= String.length s.
Proof.
  intros Hterm Hcons.
  induction n as [|n IH]; intros s c Hn Hb.
  - destruct (P s c) as [[r c1]|] eqn:HP; [|now apply Hterm in HP].
    destruct (ok_defined r) eqn:Hr.
    + specialize (Hcons s c r c1 Hb HP Hr). lia.
    + exists [], s, c1. split; [eapply Run_stop; eauto|simpl; lia].
  - destruct (P s c) as [[r c1]|] eqn:HP; [|now apply Hterm in HP].
    destruct (ok_defined r) eqn:Hr.
    + pose proof (Hcons s c r c1 Hb HP Hr) as Hlt.
      destruct (IH (remainder r) c1) as (vs & s' & c' & HR & Hlen);
        [lia|lia|].
      exists (value r :: vs), s', c'.
      split; [eapply Run_step; eauto|simpl; lia].
    + exists [], s, c1. split; [eapply Run_stop; eauto|simpl; lia].
Qed.

(** C4, amended. Let [P] be a parser that, on the inputs no longer than
    [s], returns, and whose records with [Ok] and a defined value leave a
    remainder strictly shorter than its input. Then [ZeroOrMore(P).parse(s)]
    returns (any fuel above the length of [s] is enough) a record with
    outcome [Ok] and no error, whose value is the array of the values of the
    maximal run of consecutive successes of [P] from [s], and whose
    remainder is the input that run ends at; with no success the array is
    empty and the remainder is [s]. *)
Theorem ZeroOrMore_consuming_returns_run fuel (P : Parser) (s : string)
    (c : Console) :
  (forall s0 c0,
      String.length s0 <= String.length s -> parse fuel P s0 c0 <> None) ->
  (forall s0 c0 r c1,
      String.length s0 <= String.length s ->
      parse fuel P s0 c0 = Some (r, c1) -> ok_defined r = true ->
      String.length (remainder r) < String.length s0) ->
  String.length s < fuel ->
  exists vs s' c',
    parse fuel (ZeroOrMore P) s c =
      Some (mkParseResult Ok s' (VArr vs) None, c') /\
    Run (parse fuel P) s c vs s' c' /\
    (vs = [] -> s' = s).
Proof.
  intros Hterm Hcons Hfuel.
  destruct (Run_exists (parse fuel P) (String.length s) Hterm Hcons
              (String.length s) s c (le_n _) (le_n _))
    as (vs & s' & c' & HR & Hlen).
  exists vs, s', c'. split; [|split].
  - simpl. unfold ZeroOrMore_parse.
    rewrite (ZeroOrMore_loop_Run _ _ _ _ _ _ HR fuel []) by lia.
    reflexivity.
  - exact HR.
  - intros ->. now inversion HR.
Qed.

Lemma Item_consumes s0 c0 r c1 :
  parse 3 Item s0 c0 = Some (r, c1) -> ok_defined r = true ->
  String.length (remainder r) < String.length s0.
Proof.
  simpl. intros H Hr. eff_inv. unfold Item_parse in *.
  destruct s0 as [|a s0]; simpl in *; [discriminate|lia].
Qed.

Lemma ZeroOrMore_consuming_returns_run_witness :
  exists vs s' c',
    parse 3 (ZeroOrMore Item) "ab" [] =
      Some (mkParseResult Ok s' (VArr vs) None, c') /\
    Run (parse 3 Item) "ab" [] vs s' c' /\
    (vs = [] -> s' = "ab").
Proof.
  apply (ZeroOrMore_consuming_returns_run 3 Item "ab" []).
  - intros s0 c0 _. simpl. discriminate.
  - intros s0 c0 r c1 _. apply Item_consumes.
  - simpl. lia.
Defined.

Lemma ZeroOrMore_loop_empty_match fuel n :
  forall result c,
    ZeroOrMore_loop (parse fuel (Match "")) n "" result c = None.
Proof.
  induction n as [|n IH]; intros result c; simpl; [reflexivity|].
  unfold bind at 1. simpl. apply IH.
Qed.

(** C4 as stated fails: [Match("")] succeeds on every input without
    consuming a character, and [ZeroOrMore(Match("")).parse("")] does not
    return: its loop never sees a failure. *)
Lemma ZeroOrMore_empty_match_never_returns :
  ~ exists fuel res,
      parse fuel (ZeroOrMore (Match "")) "" [] = Some res.
Proof.
  intros (fuel & res & H).
  change (ZeroOrMore_loop (parse fuel (Match "")) fuel "" [] [] = Some res)
    in H.
  now rewrite ZeroOrMore_loop_empty_match in H.
Qed.

(** ** [Sequence] *)

Lemma Sequence_parse_failure Ps s c s1 c1 :
  AllOk Ps s c s1 c1 ->
  forall Q Qs r c2,
    Q s1 c1 = Some (r, c2) -> state r = Error ->
    Sequence_parse (Ps ++ Q :: Qs) s c =
    Some (mkParseResult Error (remainder r) VUndefined
            (Some "Couldn't fulfill sequence of parsers"), c2).
Proof.
  induction 1 as [s c | P Ps s c r0 c0 s1 c1 HP Hok _ IH];
    intros Q Qs r c2 HQ Herr; simpl.
  - rewrite (bind_step _ _ _ _ _ HQ), Herr. reflexivity.
  - rewrite (bind_step _ _ _ _ _ HP), Hok. eapply IH; eauto.
Qed.

Lemma Sequence_parse_success Ps s c s' c' :
  AllOk Ps s c s' c' ->
  Sequence_parse Ps s c = Some (mkParseResult Ok s' VNull None, c').
Proof.
  induction 1 as [s c | P Ps s c r0 c0 s' c' HP Hok _ IH]; simpl.
  - reflexivity.
  - rewrite (bind_step _ _ _ _ _ HP), Hok. exact IH.
Qed.

(** C6. [Sequence] applies its sub-parsers in order, each on the remainder
    the one before returned. At the first sub-parser whose record has
    outcome [Error] it stops (the parsers after it are not run) and returns
    a record with outcome [Error] whose remainder is the remainder of that
    failing record, not the input [s] given to [Sequence]. When every
    sub-parser returns [Ok] the result is [Ok] with value [null] and the
    last remainder. On "ac", [Sequence(Match("a"), Match("b"), Item)] fails
    with remainder "c". *)
Theorem Sequence_stops_at_first_failure :
  (forall fuel ps1 q ps2 s c s1 c1 r c2,
      AllOk (map (parse fuel) ps1) s c s1 c1 ->
      parse fuel q s1 c1 = Some (r, c2) ->
      state r = Error ->
      parse fuel (Sequence (ps1 ++ q :: ps2)) s c =
      Some (mkParseResult Error (remainder r) VUndefined
              (Some "Couldn't fulfill sequence of parsers"), c2)) /\
  (forall fuel ps s c s' c',
      AllOk (map (parse fuel) ps) s c s' c' ->
      parse fuel (Sequence ps) s c =
      Some (mkParseResult Ok s' VNull None, c')) /\
  parse 0 (Sequence [Match "a"; Match "b"; Item]) "ac" [] =
  Some (mkParseResult Error "c" VUndefined
          (Some "Couldn't fulfill sequence of parsers"), []).
Proof.
  split; [|split].
  - intros fuel ps1 q ps2 s c s1 c1 r c2 Hall Hq Herr. simpl.
    rewrite map_app. simpl.
    eapply Sequence_parse_failure; eauto.
  - intros fuel ps s c s' c' Hall. simpl.
    now apply Sequence_parse_success.
  - reflexivity.
Qed.

Lemma Sequence_stops_at_first_failure_witness :
  parse 0 (Sequence ([Match "a"] ++ Match "b" :: [Item])) "ac" [] =
  Some (mkParseResult Error "c" VUndefined
          (Some "Couldn't fulfill sequence of parsers"), []) /\
  parse 0 (Sequence [Match "a"; Item]) "ac" [] =
  Some (mkParseResult Ok "" VNull None, []).
Proof.
  split.
  - apply (proj1 Sequence_stops_at_first_failure 0 [Match "a"] (Match "b")
             [Item] "ac" [] "c" []
             (mkParseResult Error "c" VUndefined (Some "Couldn't match"))
             []).
    + eapply AllOk_cons; [reflexivity|reflexivity|apply AllOk_nil].
    + reflexivity.
    + reflexivity.
  - apply (proj1 (proj2 Sequence_stops_at_first_failure) 0
             [Match "a"; Item] "ac" [] "" []).
    eapply AllOk_cons; [reflexivity|reflexivity|].
    eapply AllOk_cons; [reflexivity|reflexivity|apply AllOk_nil].
Defined.

(** ** [Pair] *)

(** C5. With "succeeds" read as the data model has it (outcome [Ok], value
    present) and "fails" as outcome [Error]: when [P1] succeeds on [s] and
    [P2] succeeds on the remainder of [P1], [Pair(P1, P2).parse(s)] is [Ok]
    with the two values as a 2-tuple and the remainder of [P2]; when [P1]
    fails, or [P1] succeeds and [P2] fails, it is [Error] with remainder [s]
    and the error of the sub-parser that failed. And
    [Pair(Match("Hello"), Item).parse("Hello World")] succeeds with value
    ("Hello", " ") and remainder "World". *)
Theorem Pair_parse_spec :
  (forall fuel P1 P2 s c r1 c1 r2 c2,
      parse fuel P1 s c = Some (r1, c1) ->
      state r1 = Ok -> is_defined (value r1) = true ->
      parse fuel P2 (remainder r1) c1 = Some (r2, c2) ->
      state r2 = Ok -> is_defined (value r2) = true ->
      parse fuel (Pair P1 P2) s c =
      Some (mkParseResult Ok (remainder r2)
              (VArr [value r1; value r2]) None, c2)) /\
  (forall fuel P1 P2 s c r1 c1,
      parse fuel P1 s c = Some (r1, c1) ->
      state r1 = Error ->
      parse fuel (Pair P1 P2) s c =
      Some (mkParseResult Error s VUndefined (error r1), c1)) /\
  (forall fuel P1 P2 s c r1 c1 r2 c2,
      parse fuel P1 s c = Some (r1, c1) ->
      state r1 = Ok -> is_defined (value r1) = true ->
      parse fuel P2 (remainder r1) c1 = Some (r2, c2) ->
      state r2 = Error ->
      parse fuel (Pair P1 P2) s c =
      Some (mkParseResult Error s VUndefined (error r2), c2)) /\
  parse 0 (Pair (Match "Hello") Item) "Hello World" [] =
  Some (mkParseResult Ok "World" (VArr [VStr "Hello"; VStr " "]) None, []).
Proof.
  split; [|split; [|split]].
  - intros fuel P1 P2 s c r1 c1 r2 c2 H1 Hs1 Hv1 H2 Hs2 Hv2.
    simpl. unfold Pair_parse.
    rewrite (bind_step _ _ _ _ _ H1). unfold ok_defined at 1.
    rewrite Hs1, Hv1.
    rewrite (bind_step _ _ _ _ _ H2). unfold ok_defined.
    rewrite Hs2, Hv2. reflexivity.
  - intros fuel P1 P2 s c r1 c1 H1 Hs1.
    simpl. unfold Pair_parse.
    rewrite (bind_step _ _ _ _ _ H1). unfold ok_defined.
    rewrite Hs1. reflexivity.
  - intros fuel P1 P2 s c r1 c1 r2 c2 H1 Hs1 Hv1 H2 Hs2.
    simpl. unfold Pair_parse.
    rewrite (bind_step _ _ _ _ _ H1). unfold ok_defined at 1.
    rewrite Hs1, Hv1.
    rewrite (bind_step _ _ _ _ _ H2). unfold ok_defined.
    rewrite Hs2. reflexivity.
  - reflexivity.
Qed.

Lemma Pair_parse_spec_witness :
  parse 0 (Pair Item (Match "b")) "abc" [] =
  Some (mkParseResult Ok "c" (VArr [VStr "a"; VStr "b"]) None, []) /\
  parse 0 (Pair Item (Match "b")) "" [] =
  Some (mkParseResult Error "" VUndefined
          (Some "Couldn't retrieve a single item, EOI"), []) /\
  parse 0 (Pair Item (Match "b")) "ac" [] =
  Some (mkParseResult Error "ac" VUndefined (Some "Couldn't match"), []).
Proof.
  split; [|split].
  - apply (proj1 Pair_parse_spec 0 Item (Match "b") "abc" []
             (mkParseResult Ok "bc" (VStr "a") None) []
             (mkParseResult Ok "c" (VStr "b") None) []);
      reflexivity.
  - apply (proj1 (proj2 Pair_parse_spec) 0 Item (Match "b") "" []
             (mkParseResult Error "" VUndefined
                (Some "Couldn't retrieve a single item, EOI")) []);
      reflexivity.
  - apply (proj1 (proj2 (proj2 Pair_parse_spec)) 0 Item (Match "b") "ac" []
             (mkParseResult Ok "c" (VStr "a") None) []
             (mkParseResult Error "c" VUndefined (Some "Couldn't match"))
             []);
      reflexivity.
Defined.

(** ** [Pred] *)

(** What [Pred.parse] returns, by the record of its sub-parser. *)
Lemma Pred_parse_cases fuel P pred_fn s c r c1 :
  parse fuel P s c = Some (r, c1) ->
  parse fuel (Pred P pred_fn) s c =
  Some (if ok_defined r && pred_fn (value r)
        then mkParseResult (state r) (remainder r) (value r) None
        else mkParseResult (state r) s VUndefined (Some "Failed predicate"),
        c1).
Proof.
  intros H. simpl. unfold Pred_parse.
  rewrite (bind_step _ _ _ _ _ H).
  now destruct (ok_defined r && pred_fn (value r)).
Qed.

(** C1, the code at the failing inputs. When [P] succeeds on [s] (outcome
    [Ok], value present) and the predicate rejects the value,
    [Pred(P, f).parse(s)] resets the remainder to [s] and sets the error
    "Failed predicate", but its outcome is the outcome of [P], [Ok], where
    the claim has [Error]. *)
Theorem Pred_rejected_value_keeps_Ok fuel (P : Parser)
    (pred_fn : JsVal -> bool) (s : string) (c : Console)
    (r : ParseResult) (c1 : Console) :
  parse fuel P s c = Some (r, c1) ->
  state r = Ok ->
  is_defined (value r) = true ->
  pred_fn (value r) = false ->
  parse fuel (Pred P pred_fn) s c =
  Some (mkParseResult Ok s VUndefined (Some "Failed predicate"), c1).
Proof.
  intros H Hs Hv Hf. rewrite (Pred_parse_cases _ _ _ _ _ _ _ H).
  unfold ok_defined. now rewrite Hs, Hv, Hf.
Qed.

Lemma Pred_rejected_value_keeps_Ok_witness :
  parse 0 (Pred Item is_space) "ab" [] =
  Some (mkParseResult Ok "ab" VUndefined (Some "Failed predicate"), []).
Proof.
  apply (Pred_rejected_value_keeps_Ok 0 Item is_space "ab" []
           (mkParseResult Ok "b" (VStr "a") None) []);
    reflexivity.
Defined.

(** C2, the code at the failing inputs. The record [Pred.parse] returns for
    a value its predicate rejects has outcome [Ok] with the value absent and
    an error present: it does not satisfy the record invariant. *)
Theorem Pred_rejected_value_breaks_invariant fuel (P : Parser)
    (pred_fn : JsVal -> bool) (s : string) (c : Console)
    (r : ParseResult) (c1 : Console) :
  parse fuel P s c = Some (r, c1) ->
  state r = Ok ->
  is_defined (value r) = true ->
  pred_fn (value r) = false ->
  exists res,
    parse fuel (Pred P pred_fn) s c = Some (res, c1) /\
    state res = Ok /\
    value res = VUndefined /\
    error res = Some "Failed predicate" /\
    record_invariant res = false.
Proof.
  intros H Hs Hv Hf. rewrite (Pred_parse_cases _ _ _ _ _ _ _ H).
  unfold ok_defined. rewrite Hs, Hv, Hf. simpl.
  eexists. split; [reflexivity|]. now repeat split.
Qed.

Lemma Pred_rejected_value_breaks_invariant_witness :
  exists res,
    parse 0 (Pred Item is_space) "ab" [] = Some (res, []) /\
    state res = Ok /\
    value res = VUndefined /\
    error res = Some "Failed predicate" /\
    record_invariant res = false.
Proof.
  apply (Pred_rejected_value_breaks_invariant 0 Item is_space "ab" []
           (mkParseResult Ok "b" (VStr "a") None) []);
    reflexivity.
Defined.

(** ** [FlatMap] *)

(** C3 as stated fails: [Item] consumes "a", the parser the bind function
    returns fails on "b", and [FlatMap] returns that failure as it is, with
    remainder "b" and not "ab". *)
Lemma FlatMap_failure_keeps_advanced_remainder :
  ~ (forall fuel P monad_fn s c r c',
        parse fuel (FlatMap P monad_fn) s c = Some (r, c') ->
        state r = Error ->
        remainder r = s).
Proof.
  intros H.
  specialize (H 0 Item (fun _ => Match "x") "ab" []
                (mkParseResult Error "b" VUndefined (Some "Couldn't match"))
                [] eq_refl eq_refl).
  discriminate H.
Qed.

(** C3, amended. When [FlatMap(P, f).parse(s)] returns a record with
    outcome [Error], its remainder is the one reported by the sub-parser
    that failed: the remainder of [P]'s record when [P] did not succeed with
    a defined value (so it is [s] when [P] left its remainder at [s]), and
    otherwise the record is, unchanged, the one that the parser [f(v)]
    returned on the remainder of [P]. *)
Theorem FlatMap_failure_remainder fuel (P : Parser)
    (monad_fn : JsVal -> Parser) (s : string) (c : Console)
    (res : ParseResult) (c' : Console) :
  parse fuel (FlatMap P monad_fn) s c = Some (res, c') ->
  state res = Error ->
  (exists r,
      parse fuel P s c = Some (r, c') /\
      state r = Error /\
      remainder res = remainder r /\
      (remainder r = s -> remainder res = s)) \/
  (exists r c1,
      parse fuel P s c = Some (r, c1) /\
      ok_defined r = true /\
      parse fuel (monad_fn (value r)) (remainder r) c1 = Some (res, c')).
Proof.
  intros H Herr. simpl in H. unfold FlatMap_parse in H.
  apply bind_Some in H. destruct H as (r & c1 & HP & H).
  destruct (ok_defined r) eqn:Hr.
  - right. exists r, c1. auto.
  - left. apply ret_Some in H. destruct H as [<- <-].
    simpl in Herr. exists r. simpl. auto.
Qed.

Lemma FlatMap_failure_remainder_witness :
  (exists r,
      parse 0 Item "ab" [] = Some (r, []) /\
      state r = Error /\
      "b" = remainder r /\
      (remainder r = "ab" -> "b" = "ab")) \/
  (exists r c1,
      parse 0 Item "ab" [] = Some (r, c1) /\
      ok_defined r = true /\
      parse 0 (Match "x") (remainder r) c1 =
      Some (mkParseResult Error "b" VUndefined (Some "Couldn't match"), [])).
Proof.
  apply (FlatMap_failure_remainder 0 Item (fun _ => Match "x") "ab" []
           (mkParseResult Error "b" VUndefined (Some "Couldn't match")) []);
    reflexivity.
Defined.

(** ** [Optional] *)

(** C9. When [P] succeeds on [s] with a falsy value (the empty string, the
    number 0, [false] or [null]), [Optional(P).parse(s)] is [Ok] with value
    [null] and the remainder of [P]; [null] is also the value when [P]
    fails, so the value field does not tell the two apart. *)
Theorem Optional_falsy_value_is_null :
  (forall fuel P s c r c1,
      parse fuel P s c = Some (r, c1) ->
      state r = Ok ->
      value r = VStr "" \/ value r = VNum 0 \/
      value r = VBool false \/ value r = VNull ->
      parse fuel (Optional P) s c =
      Some (mkParseResult Ok (remainder r) VNull None, c1)) /\
  (forall fuel P s c r c1,
      parse fuel P s c = Some (r, c1) ->
      state r = Error ->
      value r = VUndefined ->
      parse fuel (Optional P) s c =
      Some (mkParseResult Ok (remainder r) VNull None, c1)).
Proof.
  split.
  - intros fuel P s c r c1 H _ Hv. simpl. unfold Optional_parse.
    rewrite (bind_step _ _ _ _ _ H).
    destruct Hv as [-> | [-> | [-> | ->]]]; reflexivity.
  - intros fuel P s c r c1 H _ Hv. simpl. unfold Optional_parse.
    rewrite (bind_step _ _ _ _ _ H). rewrite Hv. reflexivity.
Qed.

Lemma Optional_falsy_value_is_null_witness :
  parse 0 (Optional (Match "")) "ab" [] =
  Some (mkParseResult Ok "ab" VNull None, []) /\
  parse 0 (Optional (Match "x")) "ab" [] =
  Some (mkParseResult Ok "ab" VNull None, []).
Proof.
  split.
  - apply (proj1 Optional_falsy_value_is_null 0 (Match "") "ab" []
             (mkParseResult Ok "ab" (VStr "") None) []).
    + reflexivity.
    + reflexivity.
    + left. reflexivity.
  - apply (proj2 Optional_falsy_value_is_null 0 (Match "x") "ab" []
             (mkParseResult Error "ab" VUndefined (Some "Couldn't match"))
             []);
      reflexivity.
Defined.

(** ** Records with outcome [Ok] and no value *)


(** C10 as stated fails for [FlatMap]: on a sub-parser record with outcome
    [Ok] and an undefined value it does not return a failure, it hands the
    outcome [Ok] on. *)
Lemma FlatMap_Ok_undefined_is_not_Error :
  ~ (forall fuel P monad_fn s c r c1,
        parse fuel P s c = Some (r, c1) ->
        state r = Ok ->
        value r = VUndefined ->
        exists res c',
          parse fuel (FlatMap P monad_fn) s c = Some (res, c') /\
          state res = Error).
Proof.
  intros H.
  destruct (H 0 (PMap Item to_undefined) (fun _ => Item) "a" []
              (mkParseResult Ok "" VUndefined None) []
              eq_refl eq_refl eq_refl)
    as (res & c' & Hres & Herr).
  inversion Hres; subst. discriminate Herr.
Qed.

(** C10, amended. A sub-parser record with outcome [Ok] whose value is
    undefined is not taken as a success by any combinator that inspects it:
    [Pair] returns [Error] (remainder reset, the record's error) whether the
    record comes from its first or its second sub-parser; [Either] and
    [FixedEither] skip the branch and go on with the next ones; the loop of
    [ZeroOrMore] stops, at any iteration; [PMap] does not apply its function
    and [FlatMap] does not call its bind function: both hand the record on
    with its outcome [Ok], its remainder and its error; [Pred] does not
    apply its predicate (the result is the same for every predicate) and
    returns a record with no value and the remainder reset. *)
Theorem Ok_undefined_is_not_taken_as_success fuel (P : Parser) (s : string)
    (c : Console) (r : ParseResult) (c1 : Console) :
  parse fuel P s c = Some (r, c1) ->
  state r = Ok ->
  value r = VUndefined ->
  (forall P2,
      parse fuel (Pair P P2) s c =
      Some (mkParseResult Error s VUndefined (error r), c1)) /\
  (forall P1 s0 c0 r1,
      parse fuel P1 s0 c0 = Some (r1, c) ->
      ok_defined r1 = true ->
      remainder r1 = s ->
      parse fuel (Pair P1 P) s0 c0 =
      Some (mkParseResult Error s0 VUndefined (error r), c1)) /\
  (forall ps,
      parse fuel (Either (P :: ps)) s c = parse fuel (Either ps) s c1) /\
  (forall ps,
      parse fuel (FixedEither (P :: ps)) s c =
      parse fuel (FixedEither ps) s c1) /\
  (forall n result,
      ZeroOrMore_loop (parse fuel P) (S n) s result c =
      Some (mkParseResult Ok s (VArr result) None, c1)) /\
  (forall map_fn,
      parse fuel (PMap P map_fn) s c =
      Some (mkParseResult Ok (remainder r) VUndefined (error r), c1)) /\
  (exists res,
      (forall pred_fn, parse fuel (Pred P pred_fn) s c = Some (res, c1)) /\
      value res = VUndefined /\
      remainder res = s) /\
  (forall monad_fn,
      parse fuel (FlatMap P monad_fn) s c =
      Some (mkParseResult Ok (remainder r) VUndefined (error r), c1)).
Proof.
  intros H Hs Hv.
  assert (Hr : ok_defined r = false)
    by (unfold ok_defined; now rewrite Hs, Hv).
  split; [|split; [|split; [|split; [|split; [|split; [|split]]]]]].
  - intros P2. simpl. unfold Pair_parse.
    now rewrite (bind_step _ _ _ _ _ H), Hr.
  - intros P1 s0 c0 r1 H1 Hr1 Hrem. simpl. unfold Pair_parse.
    rewrite (bind_step _ _ _ _ _ H1), Hr1, Hrem.
    now rewrite (bind_step _ _ _ _ _ H), Hr.
  - intros ps. simpl. now rewrite (bind_step _ _ _ _ _ H), Hr.
  - intros ps. simpl. unfold FixedEither_parse. simpl.
    now rewrite (bind_step _ _ _ _ _ H), Hr.
  - intros n result. simpl. now rewrite (bind_step _ _ _ _ _ H), Hr.
  - intros map_fn. simpl. unfold PMap_parse.
    now rewrite (bind_step _ _ _ _ _ H), Hr, Hs.
  - exists (mkParseResult (state r) s VUndefined (Some "Failed predicate")).
    split; [|split; reflexivity].
    intros pred_fn. rewrite (Pred_parse_cases _ _ _ _ _ _ _ H).
    now rewrite Hr.
  - intros monad_fn. simpl. unfold FlatMap_parse.
    now rewrite (bind_step _ _ _ _ _ H), Hr, Hs.
Qed.

Lemma Ok_undefined_is_not_taken_as_success_witness :
  parse 1 (Pair (PMap Item to_undefined) Item) "ab" [] =
    Some (mkParseResult Error "ab" VUndefined None, []) /\
  parse 1 (Either [PMap Item to_undefined; Match "a"]) "ab" [] =
    Some (mkParseResult Ok "b" (VStr "a") None, []) /\
  parse 1 (ZeroOrMore (PMap Item to_undefined)) "ab" [] =
    Some (mkParseResult Ok "ab" (VArr []) None, []) /\
  parse 1 (FlatMap (PMap Item to_undefined) (fun _ => Item)) "ab" [] =
    Some (mkParseResult Ok "b" VUndefined None, []).
Proof.
  pose proof (Ok_undefined_is_not_taken_as_success 1
                (PMap Item to_undefined) "ab" []
                (mkParseResult Ok "b" VUndefined None) []
                eq_refl eq_refl eq_refl)
    as (HPair & _ & HEither & _ & HLoop & _ & _ & HFlatMap).
  split; [|split; [|split]].
  - apply HPair.
  - rewrite HEither. reflexivity.
  - apply (HLoop 0 []).
  - apply HFlatMap.
Defined.


(** ** The record invariant away from [Pred]

    Every other combinator that builds a failure record of its own sets
    [Result.Error] in it, and a success record never carries an error. *)

Lemma invariant_not_ok r :
  record_invariant r = true -> ok_defined r = false ->
  state r = Error /\ error r <> None.
Proof.
  unfold record_invariant, ok_defined.
  destruct (state r); intros H Hr.
  - rewrite Hr in H. discriminate.
  - split; [reflexivity|]. now destruct (error r).
Qed.

Lemma invariant_failure st rem e :
  st = Error -> e <> None ->
  record_invariant (mkParseResult st rem VUndefined e) = true.
Proof. intros -> He. now destruct e. Qed.

Lemma ok_defined_Ok r :
  ok_defined r = true -> state r = Ok /\ is_defined (value r) = true.
Proof. unfold ok_defined. now destruct (state r). Qed.

Lemma ZeroOrMore_loop_record (P : ParseFn) fuel :
  forall s result c r c',
    ZeroOrMore_loop P fuel s result c = Some (r, c') ->
    exists rem vs, r = mkParseResult Ok rem (VArr vs) None.
Proof.
  induction fuel as [|fuel IH]; intros s result c r c' H; simpl in H.
  - discriminate.
  - eff_inv.
    match goal with
    | H : (if ?b then _ else _) _ = Some _ |- _ => destruct b
    end.
    + eauto.
    + eff_inv. eauto.
Qed.

Section Invariant_combinators.

Variables P P1 P2 : ParseFn.
Hypothesis HP : invariant_fn P.
Hypothesis HP1 : invariant_fn P1.
Hypothesis HP2 : invariant_fn P2.

Lemma invariant_Inspect : invariant_fn (Inspect_parse P).
Proof.
  intros s c r c' H. unfold Inspect_parse in H. eff_cases. eauto.
Qed.

Lemma invariant_Pair : invariant_fn (Pair_parse P1 P2).
Proof.
  intros s c r c' H. unfold Pair_parse in H. eff_cases.
  - reflexivity.
  - apply invariant_failure; [reflexivity|].
    eapply invariant_not_ok; eauto.
  - apply invariant_failure; [reflexivity|].
    eapply invariant_not_ok; eauto.
Qed.

Lemma Pair_parse_value s c r c' :
  Pair_parse P1 P2 s c = Some (r, c') -> ok_defined r = true ->
  exists r1 c1 r2,
    P1 s c = Some (r1, c1) /\ ok_defined r1 = true /\
    P2 (remainder r1) c1 = Some (r2, c') /\ ok_defined r2 = true /\
    value r = VArr [value r1; value r2].
Proof.
  intros H Hr. unfold Pair_parse in H. eff_cases; try discriminate Hr.
  repeat eexists; eauto.
Qed.

Lemma invariant_PMap_on (V : JsVal -> Prop) map_fn :
  (forall s c r c', P s c = Some (r, c') -> ok_defined r = true ->
                    V (value r)) ->
  (forall v, V v -> is_defined (map_fn v) = true) ->
  invariant_fn (PMap_parse P map_fn).
Proof.
  intros HV Hf s c r c' H. unfold PMap_parse in H. eff_cases.
  - match goal with
    | Hr : ok_defined ?x = true |- _ =>
        destruct (ok_defined_Ok _ Hr) as [Hs _];
        unfold record_invariant; simpl; rewrite Hs;
        rewrite (Hf _ (HV _ _ _ _ ltac:(eassumption) Hr))
    end.
    reflexivity.
  - match goal with
    | Hr : ok_defined ?x = false |- _ =>
        destruct (invariant_not_ok x ltac:(eauto) Hr)
    end.
    now apply invariant_failure.
Qed.

Lemma invariant_PMap map_fn :
  (forall v, is_defined v = true -> is_defined (map_fn v) = true) ->
  invariant_fn (PMap_parse P map_fn).
Proof.
  intros Hf. apply (invariant_PMap_on (fun v => is_defined v = true));
    [|assumption].
  intros s c r c' _ Hr. now apply ok_defined_Ok.
Qed.

Lemma invariant_ZeroOrMore fuel : invariant_fn (ZeroOrMore_parse fuel P).
Proof.
  intros s c r c' H. apply ZeroOrMore_loop_record in H.
  destruct H as (rem & vs & ->). reflexivity.
Qed.

Lemma invariant_FlatMap (K : JsVal -> ParseFn) :
  (forall v, invariant_fn (K v)) -> invariant_fn (FlatMap_parse P K).
Proof.
  intros HK s c r c' H. unfold FlatMap_parse in H. eff_inv.
  match goal with
  | H : (if ok_defined ?x then _ else _) _ = Some _ |- _ =>
      destruct (ok_defined x) eqn:Hr
  end.
  - eapply HK; eauto.
  - eff_inv.
    match goal with
    | Hr : ok_defined ?x = false |- _ =>
        destruct (invariant_not_ok x ltac:(eauto) Hr)
    end.
    now apply invariant_failure.
Qed.

Lemma invariant_Optional : invariant_fn (Optional_parse P).
Proof.
  intros s c r c' H. unfold Optional_parse in H. eff_cases.
  unfold record_invariant, js_or. cbn [state value error].
  match goal with
  | |- context [truthy ?v] =>
      destruct (truthy v) eqn:Ht;
      [destruct v; (discriminate Ht || reflexivity)|reflexivity]
  end.
Qed.

End Invariant_combinators.

Lemma invariant_Left P1 P2 :
  invariant_fn P1 -> invariant_fn P2 -> invariant_fn (Left_parse P1 P2).
Proof.
  intros H1 H2.
  apply (invariant_PMap_on _ (invariant_Pair P1 P2 H1 H2)
           (fun v => exists a b, v = VArr [a; b] /\ is_defined a = true)).
  - intros s c r c' H Hr.
    destruct (Pair_parse_value _ _ _ _ _ _ H Hr)
      as (r1 & c1 & r2 & _ & Hr1 & _ & _ & ->).
    exists (value r1), (value r2). split; [reflexivity|].
    now apply ok_defined_Ok.
  - now intros v (a & b & -> & Ha).
Qed.

Lemma invariant_Right P1 P2 :
  invariant_fn P1 -> invariant_fn P2 -> invariant_fn (Right_parse P1 P2).
Proof.
  intros H1 H2.
  apply (invariant_PMap_on _ (invariant_Pair P1 P2 H1 H2)
           (fun v => exists a b, v = VArr [a; b] /\ is_defined b = true)).
  - intros s c r c' H Hr.
    destruct (Pair_parse_value _ _ _ _ _ _ H Hr)
      as (r1 & c1 & r2 & _ & _ & _ & Hr2 & ->).
    exists (value r1), (value r2). split; [reflexivity|].
    now apply ok_defined_Ok.
  - now intros v (a & b & -> & Hb).
Qed.

Lemma invariant_OneOrMore fuel P :
  invariant_fn P -> invariant_fn (OneOrMore_parse fuel P).
Proof.
  intros HP.
  apply (invariant_PMap_on _
           (invariant_Pair P _ HP (invariant_ZeroOrMore P fuel))
           (fun v => exists head tail, v = VArr [head; VArr tail])).
  - intros s c r c' H Hr.
    destruct (Pair_parse_value _ _ _ _ _ _ H Hr)
      as (r1 & c1 & r2 & _ & _ & H2 & _ & ->).
    apply ZeroOrMore_loop_record in H2. destruct H2 as (rem & vs & ->).
    now exists (value r1), vs.
  - now intros v (head & tail & ->).
Qed.

Lemma invariant_Either Ps :
  Forall invariant_fn Ps -> invariant_fn (Either_parse Ps).
Proof.
  induction 1 as [|P Ps HP _ IH]; intros s c r c' H; simpl in H.
  - eff_inv. reflexivity.
  - eff_inv.
    match goal with
    | H : (if ok_defined ?x then _ else _) _ = Some _ |- _ =>
        destruct (ok_defined x) eqn:Hr
    end.
    + eff_inv. destruct (ok_defined_Ok _ Hr) as [Hs Hv].
      unfold record_invariant. simpl. now rewrite Hs, Hv.
    + eauto.
Qed.

Lemma invariant_Sequence Ps : invariant_fn (Sequence_parse Ps).
Proof.
  induction Ps as [|P Ps IH]; intros s c r c' H; simpl in H.
  - eff_inv. reflexivity.
  - eff_inv.
    match goal with
    | H : (match state ?x with Ok => _ | Error => _ end) _ = Some _ |- _ =>
        destruct (state x) eqn:Hs
    end.
    + eauto.
    + eff_inv. reflexivity.
Qed.

Lemma PredFree_Either ps :
  PredFree (Either ps) -> all_parsers PredFree ps.
Proof.
  induction ps as [|q qs IH]; simpl; [trivial|].
  intros [Hq Hqs]. split; [assumption|]. apply IH. exact Hqs.
Qed.

(** Away from [Pred], the library keeps the invariant of the data model:
    every record returned by a parser built without [Pred] has, with
    outcome [Ok], a value and no error, and with outcome [Error], an error
    and no value. *)
Lemma record_invariant_without_Pred fuel p :
  PredFree p -> invariant_fn (parse fuel p).
Proof.
  induction p using Parser_tree_ind; intros HB; simpl.
  - destruct HB.
  - intros s c r c' H. eff_inv. unfold Match_parse.
    now destruct (String.eqb _ literal).
  - intros s c r c' H. eff_inv. unfold Item_parse.
    destruct (Nat.eqb _ 0); reflexivity.
  - intros s c r c' H. eff_inv. unfold Identifier_parse.
    destruct (negb _); reflexivity.
  - apply invariant_Inspect; auto.
  - destruct HB. apply invariant_Pair; auto.
  - destruct HB. apply invariant_PMap; auto.
  - destruct HB. apply invariant_Left; auto.
  - destruct HB. apply invariant_Right; auto.
  - apply invariant_ZeroOrMore.
  - apply invariant_OneOrMore; auto.
  - destruct HB.
  - apply invariant_Either.
    eapply all_parsers_built; eauto using PredFree_Either.
  - apply invariant_Either.
    eapply all_parsers_built; eauto. now apply PredFree_Either.
  - destruct HB. apply invariant_FlatMap; auto.
  - apply invariant_Optional.
  - apply invariant_Sequence.
Qed.

(** * Further properties of the library *)

(** ** Leaf parsers *)

Lemma slice_to_append (l rest : string) :
  slice_to (String.length l) (l ++ rest) = l.
Proof. induction l as [|a l IH]; simpl; [reflexivity|now rewrite IH]. Qed.

Lemma slice_from_append (l rest : string) :
  slice_from (String.length l) (l ++ rest) = rest.
Proof. induction l as [|a l IH]; simpl; [reflexivity|exact IH]. Qed.

Lemma Match_parse_prefix literal rest :
  Match_parse literal (literal ++ rest) =
  mkParseResult Ok rest (VStr literal) None.
Proof.
  unfold Match_parse.
  now rewrite slice_to_append, slice_from_append, String.eqb_refl.
Qed.

Lemma Match_parse_no_prefix literal input :
  (forall rest, input <> literal ++ rest) ->
  Match_parse literal input =
  mkParseResult Error input VUndefined (Some "Couldn't match").
Proof.
  intros Hno. unfold Match_parse.
  destruct (String.eqb _ literal) eqn:E; [|reflexivity].
  apply String.eqb_eq in E. exfalso.
  apply (Hno (slice_from (String.length literal) input)).
  pose proof (slice_to_from (String.length literal) input) as H.
  now rewrite E in H.
Qed.

(** X1. [Match(literal)] succeeds exactly on the inputs that start with
    the literal: on [literal ++ rest] it returns [Ok] with the literal as
    value and [rest] as remainder, and on an input that does not start
    with the literal it returns [Error] with the input as remainder. The
    empty literal matches every input and consumes nothing. *)
Theorem Match_succeeds_iff_prefix (literal input : string) :
  (forall rest,
      input = literal ++ rest ->
      Match_parse literal input =
      mkParseResult Ok rest (VStr literal) None) /\
  ((forall rest, input <> literal ++ rest) ->
   Match_parse literal input =
   mkParseResult Error input VUndefined (Some "Couldn't match")) /\
  (state (Match_parse literal input) = Ok <->
   exists rest, input = literal ++ rest) /\
  Match_parse EmptyString input =
  mkParseResult Ok input (VStr EmptyString) None.
Proof.
  split; [|split; [|split]].
  - intros rest ->. apply Match_parse_prefix.
  - apply Match_parse_no_prefix.
  - split.
    + intros Hok. unfold Match_parse in Hok.
      destruct (String.eqb _ literal) eqn:E; [|discriminate].
      apply String.eqb_eq in E.
      exists (slice_from (String.length literal) input).
      pose proof (slice_to_from (String.length literal) input) as H.
      now rewrite E in H.
    + intros [rest ->]. now rewrite Match_parse_prefix.
  - apply (Match_parse_prefix EmptyString input).
Qed.

Lemma Match_succeeds_iff_prefix_witness :
  Match_parse "tr" "true" = mkParseResult Ok "ue" (VStr "tr") None /\
  Match_parse "x" "true" =
  mkParseResult Error "true" VUndefined (Some "Couldn't match").
Proof.
  split.
  - apply (proj1 (Match_succeeds_iff_prefix "tr" "true") "ue").
    reflexivity.
  - apply (proj1 (proj2 (Match_succeeds_iff_prefix "x" "true"))).
    intros rest H. simpl in H. discriminate H.
Defined.

Lemma Identifier_loop_spec input :
  forall steps i,
    String.length input <= i + steps ->
    let c := Identifier_loop input steps i i in
    i <= c /\
    (i <= String.length input -> c <= String.length input) /\
    (forall j, i <= j -> j < c -> joinable (at_index input j) = true) /\
    (c < String.length input -> joinable (at_index input c) = false).
Proof.
  induction steps as [|steps IH]; intros i Hlen; simpl.
  - repeat split; intros; lia.
  - destruct (Nat.ltb_spec i (String.length input)) as [Hlt|Hge].
    + fold (joinable (at_index input i)).
      destruct (joinable (at_index input i)) eqn:Hj.
      * destruct (IH (S i)) as (H1 & H2 & H3 & H4); [lia|].
        repeat split.
        -- lia.
        -- intros _. apply H2. lia.
        -- intros j Hij Hjc.
           destruct (Nat.eq_dec j i) as [->|Hne]; [exact Hj|].
           apply H3; lia.
        -- exact H4.
      * repeat split; intros; (lia || assumption).
    + repeat split; intros; lia.
Qed.

Lemma length_slice_to n s :
  n <= String.length s -> String.length (slice_to n s) = n.
Proof.
  revert s. induction n as [|n IH]; intros s H; [reflexivity|].
  destruct s as [|a s]; simpl in *; [lia|]. rewrite IH; lia.
Qed.

Lemma at_index_slice_from n s :
  at_index (slice_from n s) 0 = at_index s n.
Proof.
  revert s. induction n as [|n IH]; intros s.
  - now destruct s.
  - destruct s as [|a s]; simpl; [reflexivity|apply IH].
Qed.

Lemma at_index_Some_length s i ch :
  at_index s i = Some ch -> i < String.length s.
Proof.
  revert i. induction s as [|a s IH]; intros i H; simpl in *.
  - discriminate.
  - destruct i as [|i]; [lia|]. apply IH in H. lia.
Qed.

(** X2. [Identifier] succeeds exactly when the first character of the
    input is alphabetic (so it fails on the empty input), and a failure
    leaves the whole input as remainder. On success the value is a
    non-empty prefix of the input and the remainder is the rest
    ([input = value ++ remainder]); every character of the value after the
    first is alphanumeric or "-"; and the match is greedy: the remainder
    does not begin with such a character. *)
Theorem Identifier_takes_maximal_run (input : string) :
  (isAlphabetic (at_index input 0) = false ->
   Identifier_parse input =
   mkParseResult Error input VUndefined
     (Some "Couldn't parse identifier")) /\
  (isAlphabetic (at_index input 0) = true ->
   exists v,
     Identifier_parse input =
     mkParseResult Ok (remainder (Identifier_parse input)) (VStr v) None /\
     input = v ++ remainder (Identifier_parse input) /\
     1 <= String.length v /\
     (forall j, 1 <= j -> j < String.length v ->
                joinable (at_index input j) = true) /\
     joinable (at_index (remainder (Identifier_parse input)) 0) = false).
Proof.
  split; intros Ha; unfold Identifier_parse; rewrite Ha; simpl;
    [reflexivity|].
  assert (Hpos : 1 <= String.length input).
  { destruct (at_index input 0) as [ch|] eqn:E; [|discriminate Ha].
    apply at_index_Some_length in E. lia. }
  destruct (Identifier_loop_spec input (String.length input) 1)
    as (H1 & H2 & H3 & H4); [lia|].
  set (c := Identifier_loop input (String.length input) 1 1) in *.
  exists (slice_to c input). repeat split.
  - apply slice_to_from.
  - rewrite length_slice_to; [exact H1|now apply H2].
  - intros j Hj1 Hjc. rewrite length_slice_to in Hjc by now apply H2.
    now apply H3.
  - rewrite at_index_slice_from.
    destruct (Nat.ltb_spec c (String.length input)) as [Hlt|Hge].
    + now apply H4.
    + destruct (at_index input c) as [ch|] eqn:E; [|reflexivity].
      apply at_index_Some_length in E. lia.
Qed.

Lemma Identifier_takes_maximal_run_witness :
  (exists v,
     Identifier_parse "x-1 y" =
     mkParseResult Ok (remainder (Identifier_parse "x-1 y")) (VStr v) None /\
     "x-1 y" = v ++ remainder (Identifier_parse "x-1 y") /\
     1 <= String.length v /\
     (forall j, 1 <= j -> j < String.length v ->
                joinable (at_index "x-1 y" j) = true) /\
     joinable (at_index (remainder (Identifier_parse "x-1 y")) 0) = false) /\
  Identifier_parse "1x" =
  mkParseResult Error "1x" VUndefined (Some "Couldn't parse identifier").
Proof.
  split.
  - apply (proj2 (Identifier_takes_maximal_run "x-1 y")). reflexivity.
  - apply (proj1 (Identifier_takes_maximal_run "1x")). reflexivity.
Defined.

(** X3. What a leaf parser returns as value is the text it consumed: when
    [Match], [Item] or [Identifier] returns [Ok], the value is a string
    [v] with [input = v ++ remainder]; when it returns [Error], the
    remainder is the input and there is no value. *)
Theorem leaf_value_is_consumed_text (r : ParseResult) (input : string) :
  (exists literal, r = Match_parse literal input) \/
  r = Item_parse input \/ r = Identifier_parse input ->
  match state r with
  | Ok => exists v, value r = VStr v /\ input = v ++ remainder r
  | Error => remainder r = input /\ value r = VUndefined
  end.
Proof.
  intros [[literal ->] | [-> | ->]].
  - unfold Match_parse.
    destruct (String.eqb _ literal) eqn:E; simpl; [|auto].
    apply String.eqb_eq in E. exists literal. split; [reflexivity|].
    pose proof (slice_to_from (String.length literal) input) as H.
    now rewrite E in H.
  - unfold Item_parse. destruct input as [|a input]; simpl; [auto|].
    eexists. split; reflexivity.
  - unfold Identifier_parse.
    destruct (isAlphabetic (at_index input 0)); simpl; [|auto].
    eexists. split; [reflexivity|]. apply slice_to_from.
Qed.

Lemma leaf_value_is_consumed_text_witness :
  exists v, VStr "a" = VStr v /\ "abc" = v ++ "bc".
Proof.
  apply (leaf_value_is_consumed_text (Item_parse "abc") "abc").
  right. left. reflexivity.
Defined.

(** X4. On a one-character string [isNumeric], which compares strings
    with [>= "0"] and [<= "9"], is the test for a decimal digit: it holds
    exactly when the character code is between 48 and 57. On [undefined]
    it is false. *)
Theorem isNumeric_one_character (a : ascii) :
  isNumeric (Some (String a EmptyString)) =
  ((48 <=? nat_of_ascii a) && (nat_of_ascii a <=? 57))%nat /\
  isNumeric None = false.
Proof.
  split; [|reflexivity].
  destruct a as [b0 b1 b2 b3 b4 b5 b6 b7].
  destruct b0, b1, b2, b3, b4, b5, b6, b7; vm_compute; reflexivity.
Qed.

(** ** How the combinators compose *)

Lemma record_eta r :
  mkParseResult (state r) (remainder r) (value r) (error r) = r.
Proof. now destruct r. Qed.

Lemma invariant_ok_defined r :
  record_invariant r = true -> ok_defined r = true -> error r = None.
Proof.
  unfold record_invariant, ok_defined.
  destruct (state r); [|discriminate].
  intros H Hr. rewrite Hr in H. simpl in H. now destruct (error r).
Qed.

Lemma invariant_rejected r :
  record_invariant r = true -> ok_defined r = false ->
  value r = VUndefined.
Proof.
  unfold record_invariant, ok_defined.
  destruct (state r); intros H Hr.
  - rewrite Hr in H. discriminate.
  - apply andb_true_iff in H. destruct H as [_ H].
    now destruct (value r).
Qed.

(** X5. Mapping with the identity changes nothing, for a sub-parser whose
    record keeps the record invariant: [P.map(v => v).parse(s)] returns the
    record of [P.parse(s)]. (For a record that breaks the invariant the
    map drops the stray error or value.) *)
Theorem PMap_identity fuel (P : Parser) (s : string) (c : Console)
    (r : ParseResult) (c' : Console) :
  parse fuel P s c = Some (r, c') ->
  record_invariant r = true ->
  parse fuel (PMap P (fun v => v)) s c = Some (r, c').
Proof.
  intros H Hinv. simpl. unfold PMap_parse.
  rewrite (bind_step _ _ _ _ _ H).
  destruct (ok_defined r) eqn:Hr; unfold ret.
  - rewrite <- (invariant_ok_defined r Hinv Hr). now rewrite record_eta.
  - rewrite <- (invariant_rejected r Hinv Hr). now rewrite record_eta.
Qed.

Lemma PMap_identity_witness :
  parse 0 (PMap Item (fun v => v)) "ab" [] =
  Some (mkParseResult Ok "b" (VStr "a") None, []).
Proof.
  apply (PMap_identity 0 Item "ab" []
           (mkParseResult Ok "b" (VStr "a") None) []);
    reflexivity.
Defined.

(** X6. Two maps in a row are the map with the composed function, when
    the first function returns a defined value for every defined
    argument: [P.map(f).map(g)] and [P.map(v => g(f(v)))] return the same
    on every input. *)
Theorem PMap_composition fuel (P : Parser) (f g : JsVal -> JsVal)
    (s : string) (c : Console) :
  (forall v, is_defined v = true -> is_defined (f v) = true) ->
  parse fuel (PMap (PMap P f) g) s c =
  parse fuel (PMap P (fun v => g (f v))) s c.
Proof.
  intros Hf. simpl. unfold PMap_parse, bind.
  destruct (parse fuel P s c) as [[r c1]|]; [|reflexivity].
  destruct (ok_defined r) eqn:Hr; unfold ret.
  - destruct (ok_defined_Ok r Hr) as [Hs Hv].
    unfold ok_defined. simpl. now rewrite Hs, (Hf _ Hv).
  - unfold ok_defined. simpl. now destruct (state r).
Qed.

Lemma PMap_composition_witness :
  parse 0 (PMap (PMap Item to_null) (fun v => VArr [v])) "ab" [] =
  parse 0 (PMap Item (fun v => VArr [to_null v])) "ab" [].
Proof.
  apply (PMap_composition 0 Item to_null (fun v => VArr [v]) "ab" []).
  intros v _. reflexivity.
Defined.

(** X7. Two predicates in a row are the predicate that asks both:
    [P.pred(f).pred(g)] and [P.pred(v => f(v) && g(v))] return the same on
    every input. *)
Theorem Pred_conjunction fuel (P : Parser) (f g : JsVal -> bool)
    (s : string) (c : Console) :
  parse fuel (Pred (Pred P f) g) s c =
  parse fuel (Pred P (fun v => f v && g v)) s c.
Proof.
  simpl. unfold Pred_parse, bind.
  destruct (parse fuel P s c) as [[r c1]|]; [|reflexivity].
  destruct (ok_defined r) eqn:Hr; simpl.
  - destruct (ok_defined_Ok r Hr) as [Hs Hv].
    destruct (f (value r)); unfold ret, ok_defined; simpl.
    + rewrite Hs, Hv. simpl. now destruct (g (value r)).
    + now rewrite Hs.
  - unfold ret, ok_defined. simpl. now destruct (state r).
Qed.

(** X8. Bind is associative: [P.flat_map(f).flat_map(g)] and
    [P.flat_map(v => f(v).flat_map(g))] return the same on every input;
    and a map after a bind can be moved into the bind function:
    [P.flat_map(f).map(h)] and [P.flat_map(v => f(v).map(h))] return the
    same. *)
Theorem FlatMap_associative fuel (P : Parser) (f g : JsVal -> Parser)
    (h : JsVal -> JsVal) (s : string) (c : Console) :
  parse fuel (FlatMap (FlatMap P f) g) s c =
  parse fuel (FlatMap P (fun v => FlatMap (f v) g)) s c /\
  parse fuel (PMap (FlatMap P f) h) s c =
  parse fuel (FlatMap P (fun v => PMap (f v) h)) s c.
Proof.
  split; simpl; unfold FlatMap_parse, PMap_parse, bind;
    (destruct (parse fuel P s c) as [[r c1]|]; [|reflexivity]);
    (destruct (ok_defined r) eqn:Hr; [reflexivity|]);
    unfold ret, ok_defined; simpl; now destruct (state r).
Qed.

Lemma Either_parse_app Ps Qs s c :
  Either_parse (Ps ++ Qs) s c =
  match Either_parse Ps s c with
  | Some (r, c1) => if ok_defined r then Some (r, c1)
                    else Either_parse Qs s c1
  | None => None
  end.
Proof.
  revert c. induction Ps as [|P Ps IH]; intros c; simpl.
  - reflexivity.
  - unfold bind. destruct (P s c) as [[r c1]|]; [|reflexivity].
    destruct (ok_defined r) eqn:Hr; [|apply IH].
    unfold ret. unfold ok_defined in *. simpl.
    destruct (state r); [now rewrite Hr|discriminate].
Qed.

Lemma Either_parse_returns Ps s c r c1 :
  Either_parse Ps s c = Some (r, c1) ->
  (ok_defined r = true /\ error r = None) \/
  r = mkParseResult Error s VUndefined
        (Some "No parser on the either succeed").
Proof.
  revert c. induction Ps as [|P Ps IH]; intros c H; simpl in H.
  - eff_inv. now right.
  - eff_inv.
    match goal with
    | H : (if ok_defined ?x then _ else _) _ = Some _ |- _ =>
        destruct (ok_defined x) eqn:Hr
    end.
    + eff_inv. left. unfold ok_defined in *. simpl. auto.
    + eauto.
Qed.

(** X9. Alternation is associative: an [Either] whose branches are two
    [Either]s returns what the [Either] of all their branches in order
    returns, [Either(Either(ps1), Either(ps2))] as [Either(ps1 ++ ps2)];
    and [FixedEither] returns what [Either] returns. *)
Theorem Either_flattens fuel (ps1 ps2 : list Parser) (s : string)
    (c : Console) :
  parse fuel (Either [Either ps1; Either ps2]) s c =
  parse fuel (Either (ps1 ++ ps2)) s c /\
  parse fuel (FixedEither (ps1 ++ ps2)) s c =
  parse fuel (Either (ps1 ++ ps2)) s c.
Proof.
  split; [|reflexivity].
  simpl. rewrite map_app, Either_parse_app. unfold bind.
  destruct (Either_parse (map (parse fuel) ps1) s c) as [[r c1]|] eqn:H1;
    [|reflexivity].
  destruct (Either_parse_returns _ _ _ _ _ H1) as [[Hr He] | ->].
  - rewrite Hr. unfold ret. rewrite <- He. now rewrite record_eta.
  - simpl.
    destruct (Either_parse (map (parse fuel) ps2) s c1) as [[r2 c2]|] eqn:H2;
      [|reflexivity].
    destruct (Either_parse_returns _ _ _ _ _ H2) as [[Hr He] | ->].
    + rewrite Hr. unfold ret. rewrite <- He. now rewrite record_eta.
    + reflexivity.
Qed.

Lemma Either_parse_first_success Ps s c c1 :
  AllRejected Ps s c c1 ->
  forall Q Qs r c2,
    Q s c1 = Some (r, c2) -> ok_defined r = true ->
    Either_parse (Ps ++ Q :: Qs) s c =
    Some (mkParseResult Ok (remainder r) (value r) None, c2).
Proof.
  induction 1 as [s c | P Ps s c r0 c0 c1 HP Hr0 _ IH];
    intros Q Qs r c2 HQ Hr; simpl.
  - rewrite (bind_step _ _ _ _ _ HQ), Hr.
    now destruct (ok_defined_Ok r Hr) as [-> _].
  - rewrite (bind_step _ _ _ _ _ HP), Hr0. eapply IH; eauto.
Qed.

Lemma Either_parse_all_rejected Ps s c c1 :
  AllRejected Ps s c c1 ->
  Either_parse Ps s c =
  Some (mkParseResult Error s VUndefined
          (Some "No parser on the either succeed"), c1).
Proof.
  induction 1 as [s c | P Ps s c r0 c0 c1 HP Hr0 _ IH]; simpl.
  - reflexivity.
  - now rewrite (bind_step _ _ _ _ _ HP), Hr0.
Qed.

(** X10. [Either] tries its branches in order on the same input. The
    first branch that returns [Ok] with a value decides: the result is
    [Ok] with that branch's remainder and value, and the branches after it
    are not run. When no branch does, the result is [Error] with the input
    as remainder and the one message of [Either], whatever the branches
    reported; so also for no branches at all. *)
Theorem Either_first_success_wins :
  (forall fuel ps1 q ps2 s c c1 r c2,
      AllRejected (map (parse fuel) ps1) s c c1 ->
      parse fuel q s c1 = Some (r, c2) ->
      ok_defined r = true ->
      parse fuel (Either (ps1 ++ q :: ps2)) s c =
      Some (mkParseResult Ok (remainder r) (value r) None, c2)) /\
  (forall fuel ps s c c1,
      AllRejected (map (parse fuel) ps) s c c1 ->
      parse fuel (Either ps) s c =
      Some (mkParseResult Error s VUndefined
              (Some "No parser on the either succeed"), c1)).
Proof.
  split.
  - intros fuel ps1 q ps2 s c c1 r c2 Hall Hq Hr. simpl.
    rewrite map_app. simpl. eapply Either_parse_first_success; eauto.
  - intros fuel ps s c c1 Hall. simpl.
    now apply Either_parse_all_rejected.
Qed.

Lemma Either_first_success_wins_witness :
  parse 0 (Either ([Match "true"] ++ Match "false" :: [Item])) "false!" [] =
  Some (mkParseResult Ok "!" (VStr "false") None, []) /\
  parse 0 (Either [Match "true"; Match "false"]) "null" [] =
  Some (mkParseResult Error "null" VUndefined
          (Some "No parser on the either succeed"), []).
Proof.
  split.
  - apply (proj1 Either_first_success_wins 0 [Match "true"]
             (Match "false") [Item] "false!" [] []
             (mkParseResult Ok "!" (VStr "false") None) []).
    + eapply AllRejected_cons;
        [reflexivity|reflexivity|apply AllRejected_nil].
    + reflexivity.
    + reflexivity.
  - apply (proj2 Either_first_success_wins 0
             [Match "true"; Match "false"] "null" [] []).
    eapply AllRejected_cons; [reflexivity|reflexivity|].
    eapply AllRejected_cons;
      [reflexivity|reflexivity|apply AllRejected_nil].
Defined.

(** ** Projections and repetition *)

Lemma Pair_parse_ok (P1 P2 : ParseFn) s c r1 c1 r2 c2 :
  P1 s c = Some (r1, c1) -> ok_defined r1 = true ->
  P2 (remainder r1) c1 = Some (r2, c2) -> ok_defined r2 = true ->
  Pair_parse P1 P2 s c =
  Some (mkParseResult Ok (remainder r2) (VArr [value r1; value r2]) None,
        c2).
Proof.
  intros H1 Hr1 H2 Hr2. unfold Pair_parse.
  now rewrite (bind_step _ _ _ _ _ H1), Hr1, (bind_step _ _ _ _ _ H2), Hr2.
Qed.

Lemma Pair_parse_first_rejected (P1 P2 : ParseFn) s c r1 c1 :
  P1 s c = Some (r1, c1) -> ok_defined r1 = false ->
  Pair_parse P1 P2 s c =
  Some (mkParseResult Error s VUndefined (error r1), c1).
Proof.
  intros H1 Hr1. unfold Pair_parse.
  now rewrite (bind_step _ _ _ _ _ H1), Hr1.
Qed.

Lemma Pair_parse_second_rejected (P1 P2 : ParseFn) s c r1 c1 r2 c2 :
  P1 s c = Some (r1, c1) -> ok_defined r1 = true ->
  P2 (remainder r1) c1 = Some (r2, c2) -> ok_defined r2 = false ->
  Pair_parse P1 P2 s c =
  Some (mkParseResult Error s VUndefined (error r2), c2).
Proof.
  intros H1 Hr1 H2 Hr2. unfold Pair_parse.
  now rewrite (bind_step _ _ _ _ _ H1), Hr1, (bind_step _ _ _ _ _ H2), Hr2.
Qed.

Lemma PMap_parse_ok (P : ParseFn) map_fn s c r c1 :
  P s c = Some (r, c1) -> ok_defined r = true ->
  PMap_parse P map_fn s c =
  Some (mkParseResult Ok (remainder r) (map_fn (value r)) None, c1).
Proof.
  intros H Hr. unfold PMap_parse.
  rewrite (bind_step _ _ _ _ _ H), Hr.
  now destruct (ok_defined_Ok r Hr) as [-> _].
Qed.

Lemma PMap_parse_rejected (P : ParseFn) map_fn s c r c1 :
  P s c = Some (r, c1) -> ok_defined r = false ->
  PMap_parse P map_fn s c =
  Some (mkParseResult (state r) (remainder r) VUndefined (error r), c1).
Proof.
  intros H Hr. unfold PMap_parse.
  now rewrite (bind_step _ _ _ _ _ H), Hr.
Qed.

(** X11. [Left(P1, P2)] and [Right(P1, P2)] run [P1] and then [P2] on its
    remainder. When both succeed (outcome [Ok], value defined) the result
    is [Ok] with the remainder of [P2] and the value of [P1] for [Left],
    of [P2] for [Right]. When [P1] does not succeed, or [P2] does not, the
    result of both is [Error] with the input as remainder and the error of
    the sub-parser that did not succeed. *)
Theorem Left_Right_project :
  (forall fuel P1 P2 s c r1 c1 r2 c2,
      parse fuel P1 s c = Some (r1, c1) -> ok_defined r1 = true ->
      parse fuel P2 (remainder r1) c1 = Some (r2, c2) ->
      ok_defined r2 = true ->
      parse fuel (Left P1 P2) s c =
        Some (mkParseResult Ok (remainder r2) (value r1) None, c2) /\
      parse fuel (Right P1 P2) s c =
        Some (mkParseResult Ok (remainder r2) (value r2) None, c2)) /\
  (forall fuel P1 P2 s c r1 c1,
      parse fuel P1 s c = Some (r1, c1) -> ok_defined r1 = false ->
      parse fuel (Left P1 P2) s c =
        Some (mkParseResult Error s VUndefined (error r1), c1) /\
      parse fuel (Right P1 P2) s c =
        Some (mkParseResult Error s VUndefined (error r1), c1)) /\
  (forall fuel P1 P2 s c r1 c1 r2 c2,
      parse fuel P1 s c = Some (r1, c1) -> ok_defined r1 = true ->
      parse fuel P2 (remainder r1) c1 = Some (r2, c2) ->
      ok_defined r2 = false ->
      parse fuel (Left P1 P2) s c =
        Some (mkParseResult Error s VUndefined (error r2), c2) /\
      parse fuel (Right P1 P2) s c =
        Some (mkParseResult Error s VUndefined (error r2), c2)).
Proof.
  split; [|split].
  - intros fuel P1 P2 s c r1 c1 r2 c2 H1 Hr1 H2 Hr2. simpl.
    unfold Left_parse, Right_parse.
    pose proof (Pair_parse_ok _ _ _ _ _ _ _ _ H1 Hr1 H2 Hr2) as HP.
    split; now rewrite (PMap_parse_ok _ _ _ _ _ _ HP eq_refl).
  - intros fuel P1 P2 s c r1 c1 H1 Hr1. simpl.
    unfold Left_parse, Right_parse.
    pose proof (Pair_parse_first_rejected _ (parse fuel P2) _ _ _ _
                  H1 Hr1) as HP.
    split; now rewrite (PMap_parse_rejected _ _ _ _ _ _ HP eq_refl).
  - intros fuel P1 P2 s c r1 c1 r2 c2 H1 Hr1 H2 Hr2. simpl.
    unfold Left_parse, Right_parse.
    pose proof (Pair_parse_second_rejected _ _ _ _ _ _ _ _
                  H1 Hr1 H2 Hr2) as HP.
    split; now rewrite (PMap_parse_rejected _ _ _ _ _ _ HP eq_refl).
Qed.

Lemma Left_Right_project_witness :
  (parse 0 (Left Item (Match ",")) "a,b" [] =
     Some (mkParseResult Ok "b" (VStr "a") None, []) /\
   parse 0 (Right Item (Match ",")) "a,b" [] =
     Some (mkParseResult Ok "b" (VStr ",") None, [])) /\
  (parse 0 (Left Item (Match ",")) "ab" [] =
     Some (mkParseResult Error "ab" VUndefined (Some "Couldn't match"), [])
   /\
   parse 0 (Right Item (Match ",")) "ab" [] =
     Some (mkParseResult Error "ab" VUndefined (Some "Couldn't match"),
           [])).
Proof.
  split.
  - apply (proj1 Left_Right_project 0 Item (Match ",") "a,b" []
             (mkParseResult Ok ",b" (VStr "a") None) []
             (mkParseResult Ok "b" (VStr ",") None) []);
      reflexivity.
  - apply (proj2 (proj2 Left_Right_project) 0 Item (Match ",") "ab" []
             (mkParseResult Ok "b" (VStr "a") None) []
             (mkParseResult Error "b" VUndefined (Some "Couldn't match"))
             []);
      reflexivity.
Defined.

(** X12. [OneOrMore(P)] fails exactly when the first application of [P]
    does not succeed: the result is then [Error] with the input as
    remainder and the error of [P]. Otherwise it is what
    [ZeroOrMore(P)] returns on the remainder of the first success, with
    the first value put in front of the array. *)
Theorem OneOrMore_is_first_then_ZeroOrMore :
  (forall fuel P s c r c1,
      parse fuel P s c = Some (r, c1) -> ok_defined r = false ->
      parse fuel (OneOrMore P) s c =
      Some (mkParseResult Error s VUndefined (error r), c1)) /\
  (forall fuel P s c r c1 s' vs c2,
      parse fuel P s c = Some (r, c1) -> ok_defined r = true ->
      parse fuel (ZeroOrMore P) (remainder r) c1 =
        Some (mkParseResult Ok s' (VArr vs) None, c2) ->
      parse fuel (OneOrMore P) s c =
      Some (mkParseResult Ok s' (VArr (value r :: vs)) None, c2)).
Proof.
  split.
  - intros fuel P s c r c1 H Hr. simpl. unfold OneOrMore_parse.
    pose proof (Pair_parse_first_rejected _
                  (ZeroOrMore_parse fuel (parse fuel P)) _ _ _ _ H Hr)
      as HP.
    now rewrite (PMap_parse_rejected _ _ _ _ _ _ HP eq_refl).
  - intros fuel P s c r c1 s' vs c2 H Hr HZ. simpl in *.
    unfold OneOrMore_parse.
    pose proof (Pair_parse_ok _ _ _ _ _ _ _ _ H Hr HZ eq_refl) as HP.
    now rewrite (PMap_parse_ok _ _ _ _ _ _ HP eq_refl).
Qed.

Lemma OneOrMore_is_first_then_ZeroOrMore_witness :
  parse 5 (OneOrMore (Match "ab")) "ababc" [] =
    Some (mkParseResult Ok "c" (VArr [VStr "ab"; VStr "ab"]) None, []) /\
  parse 5 (OneOrMore (Match "ab")) "c" [] =
    Some (mkParseResult Error "c" VUndefined (Some "Couldn't match"), []).
Proof.
  split.
  - apply (proj2 OneOrMore_is_first_then_ZeroOrMore 5 (Match "ab")
             "ababc" [] (mkParseResult Ok "abc" (VStr "ab") None) []
             "c" [VStr "ab"] []);
      reflexivity.
  - apply (proj1 OneOrMore_is_first_then_ZeroOrMore 5 (Match "ab") "c" []
             (mkParseResult Error "c" VUndefined (Some "Couldn't match"))
             []);
      reflexivity.
Defined.

Lemma ZeroOrMore_loop_sound (P : ParseFn) fuel :
  forall s result c res c',
    ZeroOrMore_loop P fuel s result c = Some (res, c') ->
    exists vs s',
      res = mkParseResult Ok s' (VArr (result ++ vs)) None /\
      Run P s c vs s' c'.
Proof.
  induction fuel as [|fuel IH]; intros s result c res c' H; simpl in H.
  - discriminate.
  - apply bind_Some in H. destruct H as (r & c1 & HP & H).
    destruct (ok_defined r) eqn:Hr.
    + apply IH in H. destruct H as (vs & s' & -> & HR).
      exists (value r :: vs), s'. split.
      * now rewrite <- app_assoc.
      * eapply Run_step; eauto.
    + apply ret_Some in H. destruct H as [<- <-].
      exists [], s. split.
      * now rewrite app_nil_r.
      * eapply Run_stop; eauto.
Qed.

Lemma Run_ends_rejected (P : ParseFn) s c vs s' c' :
  Run P s c vs s' c' ->
  exists r c0, P s' c0 = Some (r, c') /\ ok_defined r = false.
Proof. induction 1; eauto. Qed.

(** X13. Whatever its sub-parser, when [ZeroOrMore(P).parse(s)] returns
    it returns [Ok] with an array and no error, never a failure; the array
    holds the values of the consecutive successes of [P] from [s], and the
    loop has stopped where [P] did not succeed: the remainder is the input
    of a call of [P] that returned a record that is not [Ok] with a
    defined value. *)
Theorem ZeroOrMore_returns_only_success fuel (P : Parser) (s : string)
    (c : Console) (res : ParseResult) (c' : Console) :
  parse fuel (ZeroOrMore P) s c = Some (res, c') ->
  exists vs,
    res = mkParseResult Ok (remainder res) (VArr vs) None /\
    Run (parse fuel P) s c vs (remainder res) c' /\
    exists r c0,
      parse fuel P (remainder res) c0 = Some (r, c') /\
      ok_defined r = false.
Proof.
  intros H. simpl in H. unfold ZeroOrMore_parse in H.
  apply ZeroOrMore_loop_sound in H. destruct H as (vs & s' & -> & HR).
  exists vs. simpl. split; [reflexivity|]. split; [exact HR|].
  eapply Run_ends_rejected; eauto.
Qed.

Lemma ZeroOrMore_returns_only_success_witness :
  exists vs,
    mkParseResult Ok "c" (VArr [VStr "ab"]) None =
    mkParseResult Ok "c" (VArr vs) None /\
    Run (parse 5 (Match "ab")) "abc" [] vs "c" [] /\
    exists r c0,
      parse 5 (Match "ab") "c" c0 = Some (r, []) /\
      ok_defined r = false.
Proof.
  apply (ZeroOrMore_returns_only_success 5 (Match "ab") "abc" []
           (mkParseResult Ok "c" (VArr [VStr "ab"]) None) []).
  reflexivity.
Defined.

(** ** Failures that show no consumed input *)

Lemma resets_Pair P1 P2 : resets_fn (Pair_parse P1 P2).
Proof.
  intros s c r c' H Herr. unfold Pair_parse in H.
  eff_cases; simpl in *; (discriminate || auto).
Qed.

Lemma resets_PMap P map_fn : resets_fn P -> resets_fn (PMap_parse P map_fn).
Proof.
  intros HP s c r c' H Herr. unfold PMap_parse in H. eff_cases.
  - match goal with
    | Hr : ok_defined ?x = true |- _ =>
        destruct (ok_defined_Ok _ Hr) as [Hs _]
    end.
    simpl in Herr. congruence.
  - simpl in *. split; [|reflexivity]. eapply HP; eauto.
Qed.

Lemma resets_Inspect P : resets_fn P -> resets_fn (Inspect_parse P).
Proof.
  intros HP s c r c' H Herr. unfold Inspect_parse in H. eff_cases. eauto.
Qed.

Lemma resets_ZeroOrMore fuel P : resets_fn (ZeroOrMore_parse fuel P).
Proof.
  intros s c r c' H Herr. apply ZeroOrMore_loop_record in H.
  destruct H as (rem & vs & ->). discriminate Herr.
Qed.

Lemma resets_Pred P pred_fn : resets_fn (Pred_parse P pred_fn).
Proof.
  intros s c r c' H Herr. unfold Pred_parse in H. eff_cases.
  - match goal with
    | Hb : ok_defined ?x && _ = true |- _ =>
        apply andb_true_iff in Hb; destruct Hb as [Hr _];
        destruct (ok_defined_Ok _ Hr) as [Hs _]
    end.
    simpl in Herr. congruence.
  - simpl. auto.
Qed.

Lemma resets_Either Ps : resets_fn (Either_parse Ps).
Proof.
  intros s c r c' H Herr.
  destruct (Either_parse_returns _ _ _ _ _ H) as [[Hr _] | ->].
  - destruct (ok_defined_Ok _ Hr). congruence.
  - simpl. auto.
Qed.

Lemma resets_Optional P : resets_fn (Optional_parse P).
Proof.
  intros s c r c' H Herr. unfold Optional_parse in H. eff_cases.
  discriminate Herr.
Qed.

Lemma resets_leaf (r : ParseResult) (s : string) :
  (exists literal, r = Match_parse literal s) \/
  r = Item_parse s \/ r = Identifier_parse s ->
  state r = Error -> remainder r = s /\ value r = VUndefined.
Proof.
  intros [[literal ->] | [-> | ->]].
  - unfold Match_parse. destruct (String.eqb _ literal); simpl;
      [discriminate|auto].
  - unfold Item_parse. destruct (Nat.eqb _ 0); simpl; [auto|discriminate].
  - unfold Identifier_parse. destruct (negb _); simpl; [auto|discriminate].
Qed.

Lemma resets_parse fuel p : ResetsOnFailure p -> resets_fn (parse fuel p).
Proof.
  induction p using Parser_tree_ind; intros HB; simpl.
  - destruct HB.
  - intros s c r c' H. eff_inv. apply resets_leaf. eauto.
  - intros s c r c' H. eff_inv. apply resets_leaf. auto.
  - intros s c r c' H. eff_inv. apply resets_leaf. auto.
  - apply resets_Inspect. auto.
  - apply resets_Pair.
  - apply resets_PMap. auto.
  - apply resets_PMap, resets_Pair.
  - apply resets_PMap, resets_Pair.
  - apply resets_ZeroOrMore.
  - apply resets_PMap, resets_Pair.
  - apply resets_Pred.
  - apply resets_Either.
  - apply resets_Either.
  - destruct HB.
  - apply resets_Optional.
  - destruct HB.
Qed.



(** X15. [Optional(P)] turns a failure of [P] into "nothing there": for a
    [P] of the kind above, when [P] returns [Error] the result is [Ok] with
    value [null] and the input as remainder. When [P] returns a truthy
    value the result is [Ok] with that value and the remainder of [P]. *)
Theorem Optional_absorbs_failure :
  (forall fuel P s c r c1,
      ResetsOnFailure P ->
      parse fuel P s c = Some (r, c1) ->
      state r = Error ->
      parse fuel (Optional P) s c =
      Some (mkParseResult Ok s VNull None, c1)) /\
  (forall fuel P s c r c1,
      parse fuel P s c = Some (r, c1) ->
      truthy (value r) = true ->
      parse fuel (Optional P) s c =
      Some (mkParseResult Ok (remainder r) (value r) None, c1)).
Proof.
  split.
  - intros fuel P s c r c1 HB H Herr.
    destruct (resets_parse fuel P HB s c r c1 H Herr) as [Hrem Hval].
    simpl. unfold Optional_parse.
    rewrite (bind_step _ _ _ _ _ H). now rewrite Hrem, Hval.
  - intros fuel P s c r c1 H Ht. simpl. unfold Optional_parse.
    rewrite (bind_step _ _ _ _ _ H). unfold js_or. now rewrite Ht.
Qed.

Lemma Optional_absorbs_failure_witness :
  parse 0 (Optional (Pair Item (Match "-"))) "a+" [] =
    Some (mkParseResult Ok "a+" VNull None, []) /\
  parse 0 (Optional (Match "+")) "+1" [] =
    Some (mkParseResult Ok "1" (VStr "+") None, []).
Proof.
  split.
  - apply (proj1 Optional_absorbs_failure 0 (Pair Item (Match "-")) "a+" []
             (mkParseResult Error "a+" VUndefined (Some "Couldn't match"))
             []).
    + exact I.
    + reflexivity.
    + reflexivity.
  - apply (proj2 Optional_absorbs_failure 0 (Match "+") "+1" []
             (mkParseResult Ok "1" (VStr "+") None) []);
      reflexivity.
Defined.

(** ** The console *)

Section Silent_combinators.

Variables P P1 P2 : ParseFn.
Hypothesis HP : silent_fn P.
Hypothesis HP1 : silent_fn P1.
Hypothesis HP2 : silent_fn P2.

Lemma silent_Pair : silent_fn (Pair_parse P1 P2).
Proof.
  intros s c r c' H. unfold Pair_parse in H. eff_cases;
    repeat match goal with
           | H : P1 _ _ = Some _ |- _ => apply HP1 in H
           | H : P2 _ _ = Some _ |- _ => apply HP2 in H
           end; congruence.
Qed.

Lemma silent_PMap map_fn : silent_fn (PMap_parse P map_fn).
Proof.
  intros s c r c' H. unfold PMap_parse in H. eff_cases; eauto.
Qed.

Lemma silent_ZeroOrMore_loop fuel :
  forall s result c r c',
    ZeroOrMore_loop P fuel s result c = Some (r, c') -> c' = c.
Proof.
  induction fuel as [|fuel IH]; intros s result c r c' H; simpl in H.
  - discriminate.
  - apply bind_Some in H. destruct H as (r0 & c1 & H0 & H).
    apply HP in H0. subst c1.
    destruct (ok_defined r0); [eauto|].
    apply ret_Some in H. now destruct H.
Qed.

Lemma silent_ZeroOrMore fuel : silent_fn (ZeroOrMore_parse fuel P).
Proof. intros s c r c' H. eapply silent_ZeroOrMore_loop; eauto. Qed.

Lemma silent_Pred pred_fn : silent_fn (Pred_parse P pred_fn).
Proof.
  intros s c r c' H. unfold Pred_parse in H. eff_cases; eauto.
Qed.

Lemma silent_FlatMap (K : JsVal -> ParseFn) :
  (forall v, silent_fn (K v)) -> silent_fn (FlatMap_parse P K).
Proof.
  intros HK s c r c' H. unfold FlatMap_parse in H.
  apply bind_Some in H. destruct H as (r0 & c1 & H0 & H).
  apply HP in H0. subst c1.
  destruct (ok_defined r0).
  - eapply HK; eauto.
  - apply ret_Some in H. now destruct H.
Qed.

Lemma silent_Optional : silent_fn (Optional_parse P).
Proof.
  intros s c r c' H. unfold Optional_parse in H. eff_cases; eauto.
Qed.

End Silent_combinators.

Lemma silent_Either Ps : Forall silent_fn Ps -> silent_fn (Either_parse Ps).
Proof.
  induction 1 as [|P Ps HP _ IH]; intros s c r c' H; simpl in H.
  - eff_inv. reflexivity.
  - apply bind_Some in H. destruct H as (r0 & c1 & H0 & H).
    apply HP in H0. subst c1.
    destruct (ok_defined r0); [|eauto].
    apply ret_Some in H. now destruct H.
Qed.

Lemma silent_Sequence Ps :
  Forall silent_fn Ps -> silent_fn (Sequence_parse Ps).
Proof.
  induction 1 as [|P Ps HP _ IH]; intros s c r c' H; simpl in H.
  - eff_inv. reflexivity.
  - apply bind_Some in H. destruct H as (r0 & c1 & H0 & H).
    apply HP in H0. subst c1.
    destruct (state r0); [eauto|].
    apply ret_Some in H. now destruct H.
Qed.

Lemma InspectFree_Either ps :
  InspectFree (Either ps) -> all_parsers InspectFree ps.
Proof.
  induction ps as [|q qs IH]; simpl; [trivial|].
  intros [Hq Hqs]. split; [assumption|]. apply IH. exact Hqs.
Qed.

Lemma silent_parse fuel p : InspectFree p -> silent_fn (parse fuel p).
Proof.
  induction p using Parser_tree_ind; intros HB; simpl.
  - intros s c r c' H. now eff_inv.
  - intros s c r c' H. now eff_inv.
  - intros s c r c' H. now eff_inv.
  - intros s c r c' H. now eff_inv.
  - destruct HB.
  - destruct HB. apply silent_Pair; auto.
  - apply silent_PMap; auto.
  - destruct HB. apply silent_PMap, silent_Pair; auto.
  - destruct HB. apply silent_PMap, silent_Pair; auto.
  - apply silent_ZeroOrMore; auto.
  - apply silent_PMap, silent_Pair; auto. apply silent_ZeroOrMore; auto.
  - apply silent_Pred; auto.
  - apply silent_Either.
    eapply all_parsers_built; eauto. now apply InspectFree_Either.
  - apply silent_Either.
    eapply all_parsers_built; eauto. now apply InspectFree_Either.
  - destruct HB. apply silent_FlatMap; auto.
  - apply silent_Optional; auto.
  - apply silent_Sequence.
    eapply all_parsers_built; eauto. now apply InspectFree_Either.
Qed.

(** X16. Only [Inspect] prints. A parser in which no node is an
    [Inspect] (its bind functions returning such parsers too) leaves the
    console exactly as it found it; and [Inspect(P)] returns the record of
    [P] unchanged and appends that one record to what [P] left on the
    console. *)
Theorem only_Inspect_prints :
  (forall fuel p s c r c',
      InspectFree p -> parse fuel p s c = Some (r, c') -> c' = c) /\
  (forall fuel P s c r c',
      parse fuel P s c = Some (r, c') ->
      parse fuel (Inspect P) s c = Some (r, (c' ++ [r])%list)).
Proof.
  split.
  - intros fuel p s c r c' HB H. eapply silent_parse; eauto.
  - intros fuel P s c r c' H. simpl. unfold Inspect_parse.
    now rewrite (bind_step _ _ _ _ _ H).
Qed.

Lemma only_Inspect_prints_witness :
  ([] : Console) = [] /\
  parse 0 (Inspect Item) "ab" [] =
  Some (mkParseResult Ok "b" (VStr "a") None,
        [mkParseResult Ok "b" (VStr "a") None]).
Proof.
  split.
  - apply (proj1 only_Inspect_prints 3
             (OneOrMore (Pred Item is_space)) " a" []
             (mkParseResult Ok "a" (VArr [VStr " "]) None) []).
    + exact I.
    + reflexivity.
  - apply (proj2 only_Inspect_prints 0 Item "ab" []
             (mkParseResult Ok "b" (VStr "a") None) []).
    reflexivity.
Defined.

(** ** [Pair] from bind and map *)

(** X17. The body of [Pair.parse] that the source keeps in a comment,
    [parser1.flat_map(value1 => parser2.map(value2 => [value1, value2]))],
    returns what [Pair] returns whenever [Pair] returns [Ok]. On failure
    the two differ: when [P1] succeeds and [P2] returns [Error], the
    bind-and-map parser returns [Error] with the remainder and error of
    [P2]'s record, where [Pair] resets the remainder to the input. *)
Theorem Pair_by_flat_map_agrees_on_success :
  (forall fuel P1 P2 s c r c',
      parse fuel (Pair P1 P2) s c = Some (r, c') ->
      state r = Ok ->
      parse fuel (Pair_by_flat_map P1 P2) s c = Some (r, c')) /\
  (forall fuel P1 P2 s c r1 c1 r2 c2,
      parse fuel P1 s c = Some (r1, c1) -> ok_defined r1 = true ->
      parse fuel P2 (remainder r1) c1 = Some (r2, c2) ->
      state r2 = Error ->
      parse fuel (Pair_by_flat_map P1 P2) s c =
        Some (mkParseResult Error (remainder r2) VUndefined (error r2), c2)
      /\
      parse fuel (Pair P1 P2) s c =
        Some (mkParseResult Error s VUndefined (error r2), c2)).
Proof.
  split.
  - intros fuel P1 P2 s c r c' H Hok. simpl in *.
    unfold Pair_parse in H. unfold FlatMap_parse, PMap_parse.
    apply bind_Some in H. destruct H as (r1 & c1 & H1 & H).
    rewrite (bind_step _ _ _ _ _ H1).
    destruct (ok_defined r1) eqn:Hr1.
    + apply bind_Some in H. destruct H as (r2 & c2 & H2 & H).
      rewrite (bind_step _ _ _ _ _ H2).
      destruct (ok_defined r2) eqn:Hr2;
        apply ret_Some in H; destruct H as [<- <-].
      * now destruct (ok_defined_Ok r2 Hr2) as [-> _].
      * discriminate Hok.
    + apply ret_Some in H. destruct H as [<- <-]. discriminate Hok.
  - intros fuel P1 P2 s c r1 c1 r2 c2 H1 Hr1 H2 Herr.
    assert (Hr2 : ok_defined r2 = false)
      by (unfold ok_defined; now rewrite Herr).
    split.
    + simpl. unfold FlatMap_parse, PMap_parse.
      rewrite (bind_step _ _ _ _ _ H1), Hr1.
      now rewrite (bind_step _ _ _ _ _ H2), Hr2, Herr.
    + simpl. now apply Pair_parse_second_rejected with (r1 := r1) (c1 := c1).
Qed.

Lemma Pair_by_flat_map_agrees_on_success_witness :
  parse 0 (Pair_by_flat_map (Match "Hello") Item) "Hello World" [] =
    Some (mkParseResult Ok "World" (VArr [VStr "Hello"; VStr " "]) None, [])
  /\
  parse 0 (Pair_by_flat_map Item (Match "x")) "ab" [] =
    Some (mkParseResult Error "b" VUndefined (Some "Couldn't match"), []).
Proof.
  split.
  - apply (proj1 Pair_by_flat_map_agrees_on_success 0 (Match "Hello") Item
             "Hello World" []
             (mkParseResult Ok "World" (VArr [VStr "Hello"; VStr " "]) None)
             []);
      reflexivity.
  - apply (proj2 Pair_by_flat_map_agrees_on_success 0 Item (Match "x")
             "ab" [] (mkParseResult Ok "b" (VStr "a") None) []
             (mkParseResult Error "b" VUndefined (Some "Couldn't match"))
             []);
      reflexivity.
Defined.

(** ** The whitespace helpers of the grammars *)

Lemma WhiteSpace_on_space fuel rest c :
  parse fuel WhiteSpace (String " " rest) c =
  Some (mkParseResult Ok rest VNull None, c).
Proof. reflexivity. Qed.

Lemma WhiteSpace_on_other fuel rest c :
  at_index rest 0 <> Some " " ->
  exists r,
    parse fuel WhiteSpace rest c = Some (r, c) /\ ok_defined r = false.
Proof.
  intros Hns. destruct rest as [|a rest].
  - eexists. split; reflexivity.
  - assert (Ha : Ascii.eqb a " " = false).
    { apply Ascii.eqb_neq. intros ->. now apply Hns. }
    eexists. split.
    + cbn. unfold Pred_parse, PMap_parse, bind, ret. cbn. rewrite Ha. cbn.
      reflexivity.
    + reflexivity.
Qed.

Lemma WhiteSpaces_loop fuel0 n :
  forall fuel rest result c,
    at_index rest 0 <> Some " " ->
    n < fuel ->
    ZeroOrMore_loop (parse fuel0 WhiteSpace) fuel (spaces n ++ rest) result c
    = Some (mkParseResult Ok rest (VArr (result ++ repeat VNull n)) None, c).
Proof.
  induction n as [|n IH]; intros fuel rest result c Hns Hfuel;
    (destruct fuel as [|fuel]; [lia|]).
  - destruct (WhiteSpace_on_other fuel0 rest c Hns) as (r & Hr & Hrej).
    cbn [spaces append ZeroOrMore_loop].
    rewrite (bind_step _ _ _ _ _ Hr), Hrej. now rewrite app_nil_r.
  - cbn [spaces append ZeroOrMore_loop].
    rewrite (bind_step _ _ _ _ _ (WhiteSpace_on_space fuel0 _ c)).
    cbn [ok_defined state value is_defined remainder].
    rewrite IH by (assumption || lia).
    now rewrite <- app_assoc.
Qed.

Lemma WhiteSpaces_strip fuel n rest c :
  at_index rest 0 <> Some " " ->
  n < fuel ->
  parse fuel WhiteSpaces (spaces n ++ rest) c =
  Some (mkParseResult Ok rest (VArr (repeat VNull n)) None, c).
Proof.
  intros Hns Hfuel.
  change (parse fuel WhiteSpaces (spaces n ++ rest) c)
    with (ZeroOrMore_loop (parse fuel WhiteSpace) fuel (spaces n ++ rest)
            [] c).
  now rewrite WhiteSpaces_loop.
Qed.

(** X18. [WhiteSpaces] strips the leading spaces and nothing else: on an
    input of [n] spaces followed by a rest that does not begin with a
    space it returns (with fuel above [n]) [Ok], the rest as remainder and
    an array of [n] nulls; it never fails, also on the empty input, and
    prints nothing. *)
Theorem WhiteSpaces_strips_leading_spaces fuel (n : nat) (rest : string)
    (c : Console) :
  at_index rest 0 <> Some " " ->
  n < fuel ->
  parse fuel WhiteSpaces (spaces n ++ rest) c =
  Some (mkParseResult Ok rest (VArr (repeat VNull n)) None, c).
Proof. apply WhiteSpaces_strip. Qed.

Lemma WhiteSpaces_strips_leading_spaces_witness :
  parse 3 WhiteSpaces "  {}" [] =
  Some (mkParseResult Ok "{}" (VArr [VNull; VNull]) None, []).
Proof.
  apply (WhiteSpaces_strips_leading_spaces 3 2 "{}" []).
  - simpl. discriminate.
  - lia.
Defined.

Lemma append_String_not_space ch m rest :
  ch <> " "%char -> at_index (String ch m ++ rest) 0 <> Some " ".
Proof. intros Hch H. simpl in H. inversion H. contradiction. Qed.

(** X19. The function [SpaceSurrounded(m)] of [json.ts]
    ([Sequence(WhiteSpaces, Match(m), WhiteSpaces)]), for a literal [m]
    that does not begin with a space. On [a] spaces, [m], [b] spaces and a
    rest not beginning with a space it returns [Ok] with value [null] and
    the rest as remainder. When, after the leading spaces, the input does
    not start with [m], it returns [Error], and the remainder is the input
    without its leading spaces: the whitespace it skipped stays
    consumed. *)
Theorem SpaceSurrounded_skips_spaces :
  (forall fuel ch m a b rest c,
      ch <> " "%char ->
      at_index rest 0 <> Some " " ->
      a < fuel -> b < fuel ->
      parse fuel (SpaceSurrounded (String ch m))
        (spaces a ++ String ch m ++ spaces b ++ rest) c =
      Some (mkParseResult Ok rest VNull None, c)) /\
  (forall fuel m a rest c,
      at_index rest 0 <> Some " " ->
      (forall x, rest <> m ++ x) ->
      a < fuel ->
      parse fuel (SpaceSurrounded m) (spaces a ++ rest) c =
      Some (mkParseResult Error rest VUndefined
              (Some "Couldn't fulfill sequence of parsers"), c)).
Proof.
  split.
  - intros fuel ch m a b rest c Hch Hns Ha Hb.
    unfold SpaceSurrounded.
    change (parse fuel (Sequence [WhiteSpaces; Match (String ch m);
                                  WhiteSpaces]))
      with (Sequence_parse [parse fuel WhiteSpaces;
                            parse fuel (Match (String ch m));
                            parse fuel WhiteSpaces]).
    cbn [Sequence_parse].
    rewrite (bind_step _ _ _ _ _
               (WhiteSpaces_strip fuel a _ c
                  (append_String_not_space ch m _ Hch) Ha)).
    cbn [state remainder].
    assert (HM : parse fuel (Match (String ch m))
                   (String ch m ++ spaces b ++ rest) c =
                 Some (mkParseResult Ok (spaces b ++ rest)
                         (VStr (String ch m)) None, c)).
    { cbn [parse]. unfold ret. now rewrite Match_parse_prefix. }
    rewrite (bind_step _ _ _ _ _ HM). cbn [state remainder].
    rewrite (bind_step _ _ _ _ _ (WhiteSpaces_strip fuel b rest c Hns Hb)).
    reflexivity.
  - intros fuel m a rest c Hns Hno Ha.
    unfold SpaceSurrounded.
    change (parse fuel (Sequence [WhiteSpaces; Match m; WhiteSpaces]))
      with (Sequence_parse [parse fuel WhiteSpaces; parse fuel (Match m);
                            parse fuel WhiteSpaces]).
    cbn [Sequence_parse].
    rewrite (bind_step _ _ _ _ _ (WhiteSpaces_strip fuel a rest c Hns Ha)).
    cbn [state remainder].
    assert (HM : parse fuel (Match m) rest c =
                 Some (mkParseResult Error rest VUndefined
                         (Some "Couldn't match"), c)).
    { cbn [parse]. unfold ret. now rewrite Match_parse_no_prefix. }
    rewrite (bind_step _ _ _ _ _ HM). reflexivity.
Qed.

Lemma SpaceSurrounded_skips_spaces_witness :
  parse 3 (SpaceSurrounded ":") (spaces 1 ++ ":" ++ spaces 2 ++ "1}") [] =
    Some (mkParseResult Ok "1}" VNull None, []) /\
  parse 3 (SpaceSurrounded ":") (spaces 2 ++ "1}") [] =
    Some (mkParseResult Error "1}" VUndefined
            (Some "Couldn't fulfill sequence of parsers"), []).
Proof.
  split.
  - apply (proj1 SpaceSurrounded_skips_spaces 3 ":"%char "" 1 2 "1}" []).
    + discriminate.
    + simpl. discriminate.
    + lia.
    + lia.
  - apply (proj2 SpaceSurrounded_skips_spaces 3 ":" 2 "1}" []).
    + simpl. discriminate.
    + intros x H. simpl in H. discriminate H.
    + lia.
Defined.

(** ** [QuotedString] of the JSON grammar *)

Lemma join_strings_chars_of body : join_strings (chars_of body) = Some body.
Proof.
  induction body as [|a body IH]; simpl; [reflexivity|now rewrite IH].
Qed.

Lemma not_delimiter_step fuel d a x c :
  parse fuel (Pred Item (differs_from (VStr (String d EmptyString))))
    (String a x) c =
  Some (if Ascii.eqb a d
        then mkParseResult Ok (String a x) VUndefined
               (Some "Failed predicate")
        else mkParseResult Ok x (VStr (String a EmptyString)) None, c).
Proof.
  cbn. unfold Pred_parse, bind, ret. cbn.
  now destruct (Ascii.eqb a d).
Qed.

Lemma not_delimiter_loop fuel0 d rest body :
  free_of d body ->
  forall fuel result c,
    String.length body < fuel ->
    ZeroOrMore_loop
      (parse fuel0 (Pred Item (differs_from (VStr (String d EmptyString)))))
      fuel (body ++ String d rest) result c =
    Some (mkParseResult Ok (String d rest)
            (VArr (result ++ chars_of body)) None, c).
Proof.
  induction body as [|a body IH]; intros Hfree fuel result c Hfuel;
    (destruct fuel as [|fuel]; [simpl in Hfuel; lia|]);
    cbn [append ZeroOrMore_loop chars_of].
  - rewrite (bind_step _ _ _ _ _ (not_delimiter_step fuel0 d d rest c)).
    rewrite Ascii.eqb_refl. cbn. now rewrite app_nil_r.
  - destruct Hfree as [Hne Hfree].
    rewrite (bind_step _ _ _ _ _ (not_delimiter_step fuel0 d a _ c)).
    apply Ascii.eqb_neq in Hne. rewrite Hne.
    cbn [ok_defined state value is_defined remainder].
    rewrite IH by (assumption || (simpl in Hfuel; lia)).
    now rewrite <- app_assoc.
Qed.

Lemma opening_quote fuel d x c :
  d = ascii_of_nat 34 \/ d = "'"%char ->
  parse fuel (Either [Match double_quote; Match "'"]) (String d x) c =
  Some (mkParseResult Ok x (VStr (String d EmptyString)) None, c).
Proof. intros [-> | ->]; reflexivity. Qed.

Lemma no_opening_quote fuel input c :
  at_index input 0 <> Some double_quote ->
  at_index input 0 <> Some "'" ->
  parse fuel (Either [Match double_quote; Match "'"]) input c =
  Some (mkParseResult Error input VUndefined
          (Some "No parser on the either succeed"), c).
Proof.
  intros Hd Hs. cbn [parse map Either_parse]. unfold bind, ret.
  rewrite (Match_parse_no_prefix double_quote input).
  - rewrite (Match_parse_no_prefix "'" input); [reflexivity|].
    intros rest ->. now apply Hs.
  - intros rest ->. now apply Hd.
Qed.

Lemma FlatMap_parse_ok (P : ParseFn) (K : JsVal -> ParseFn) s c r c1 :
  P s c = Some (r, c1) -> ok_defined r = true ->
  FlatMap_parse P K s c = K (value r) (remainder r) c1.
Proof.
  intros H Hr. unfold FlatMap_parse.
  now rewrite (bind_step _ _ _ _ _ H), Hr.
Qed.

Lemma FlatMap_parse_rejected (P : ParseFn) (K : JsVal -> ParseFn)
    s c r c1 :
  P s c = Some (r, c1) -> ok_defined r = false ->
  FlatMap_parse P K s c =
  Some (mkParseResult (state r) (remainder r) VUndefined (error r), c1).
Proof.
  intros H Hr. unfold FlatMap_parse.
  now rewrite (bind_step _ _ _ _ _ H), Hr.
Qed.

Lemma quoted_body fuel d body rest c :
  free_of d body ->
  String.length body < fuel ->
  parse fuel
    (Left (ZeroOrMore
             (Pred Item (differs_from (VStr (String d EmptyString)))))
          (Match (String d EmptyString)))
    (body ++ String d rest) c =
  Some (mkParseResult Ok rest (VArr (chars_of body)) None, c).
Proof.
  intros Hfree Hfuel.
  change (Left_parse
            (ZeroOrMore_parse fuel
               (parse fuel
                  (Pred Item
                     (differs_from (VStr (String d EmptyString))))))
            (fun input => ret (Match_parse (String d EmptyString) input))
            (body ++ String d rest) c =
          Some (mkParseResult Ok rest (VArr (chars_of body)) None, c)).
  unfold Left_parse.
  rewrite (PMap_parse_ok _ _ _ _
             (mkParseResult Ok rest
                (VArr [VArr (chars_of body); VStr (String d EmptyString)])
                None) c);
    [reflexivity| |reflexivity].
  apply Pair_parse_ok with
    (r1 := mkParseResult Ok (String d rest) (VArr (chars_of body)) None)
    (c1 := c)
    (r2 := mkParseResult Ok rest (VStr (String d EmptyString)) None);
    try reflexivity.
  - unfold ZeroOrMore_parse.
    now rewrite (not_delimiter_loop fuel d rest body Hfree fuel [] c).
  - cbn [remainder]. unfold ret.
    pose proof (Match_parse_prefix (String d EmptyString) rest) as HM.
    cbn [append] in HM. now rewrite HM.
Qed.

(** X20. [QuotedString] reads a string between two equal quotes. On an
    opening quote (double or single), a body without that quote character,
    the same quote again and a rest, it returns [Ok] with the body as value
    and the rest as remainder (fuel above the length of the body is
    enough); the other quote character may occur in the body. On an input
    that does not begin with a quote it returns [Error] with the input as
    remainder. *)
Theorem QuotedString_reads_body :
  (forall fuel d body rest c,
      d = ascii_of_nat 34 \/ d = "'"%char ->
      free_of d body ->
      String.length body < fuel ->
      parse fuel QuotedString (String d (body ++ String d rest)) c =
      Some (mkParseResult Ok rest (VStr body) None, c)) /\
  (forall fuel input c,
      at_index input 0 <> Some double_quote ->
      at_index input 0 <> Some "'" ->
      parse fuel QuotedString input c =
      Some (mkParseResult Error input VUndefined
              (Some "No parser on the either succeed"), c)).
Proof.
  split.
  - intros fuel d body rest c Hd Hfree Hfuel.
    unfold QuotedString.
    match goal with
    | |- parse fuel (PMap (FlatMap ?E ?f) join_fn) ?s c = _ =>
        change (PMap_parse
                  (FlatMap_parse (parse fuel E)
                     (fun v => parse fuel (f v)))
                  join_fn s c =
                Some (mkParseResult Ok rest (VStr body) None, c))
    end.
    rewrite (PMap_parse_ok _ _ _ _
               (mkParseResult Ok rest (VArr (chars_of body)) None) c).
    + cbn [join_fn value remainder].
      now rewrite join_strings_chars_of.
    + rewrite (FlatMap_parse_ok _ _ _ _ _ _
                 (opening_quote fuel d _ c Hd) eq_refl).
      cbn [value remainder as_string].
      now apply quoted_body.
    + reflexivity.
  - intros fuel input c Hd Hs.
    unfold QuotedString.
    match goal with
    | |- parse fuel (PMap (FlatMap ?E ?f) join_fn) ?s c = _ =>
        change (PMap_parse
                  (FlatMap_parse (parse fuel E)
                     (fun v => parse fuel (f v)))
                  join_fn s c =
                Some (mkParseResult Error input VUndefined
                        (Some "No parser on the either succeed"), c))
    end.
    rewrite (PMap_parse_rejected _ _ _ _
               (mkParseResult Error input VUndefined
                  (Some "No parser on the either succeed")) c);
      [reflexivity| |reflexivity].
    now rewrite (FlatMap_parse_rejected _ _ _ _ _ _
                   (no_opening_quote fuel input c Hd Hs) eq_refl).
Qed.

Lemma QuotedString_reads_body_witness :
  parse 9 QuotedString "'hello': 1" [] =
    Some (mkParseResult Ok ": 1" (VStr "hello") None, []) /\
  parse 9 QuotedString "hello" [] =
    Some (mkParseResult Error "hello" VUndefined
            (Some "No parser on the either succeed"), []).
Proof.
  split.
  - apply (proj1 QuotedString_reads_body 9 "'"%char "hello" ": 1" []).
    + right. reflexivity.
    + simpl. repeat split; discriminate.
    + simpl. lia.
  - apply (proj2 QuotedString_reads_body 9 "hello" []).
    + simpl. discriminate.
    + simpl. discriminate.
Defined.

(** ** The helper combinators of [pl0.ts] *)

Lemma Left_parse_ok (P1 P2 : ParseFn) s c r1 c1 r2 c2 :
  P1 s c = Some (r1, c1) -> ok_defined r1 = true ->
  P2 (remainder r1) c1 = Some (r2, c2) -> ok_defined r2 = true ->
  Left_parse P1 P2 s c =
  Some (mkParseResult Ok (remainder r2) (value r1) None, c2).
Proof.
  intros H1 Hr1 H2 Hr2. unfold Left_parse.
  now rewrite (PMap_parse_ok _ _ _ _ _ _
                 (Pair_parse_ok _ _ _ _ _ _ _ _ H1 Hr1 H2 Hr2) eq_refl).
Qed.

Lemma Right_parse_ok (P1 P2 : ParseFn) s c r1 c1 r2 c2 :
  P1 s c = Some (r1, c1) -> ok_defined r1 = true ->
  P2 (remainder r1) c1 = Some (r2, c2) -> ok_defined r2 = true ->
  Right_parse P1 P2 s c =
  Some (mkParseResult Ok (remainder r2) (value r2) None, c2).
Proof.
  intros H1 Hr1 H2 Hr2. unfold Right_parse.
  now rewrite (PMap_parse_ok _ _ _ _ _ _
                 (Pair_parse_ok _ _ _ _ _ _ _ _ H1 Hr1 H2 Hr2) eq_refl).
Qed.

Lemma Surrounded_parse_ok fuel l m closing s c rl cl rm cm rr cr :
  parse fuel l s c = Some (rl, cl) -> ok_defined rl = true ->
  parse fuel m (remainder rl) cl = Some (rm, cm) -> ok_defined rm = true ->
  parse fuel closing (remainder rm) cm = Some (rr, cr) ->
  ok_defined rr = true ->
  parse fuel (Right l (Left m closing)) s c =
  Some (mkParseResult Ok (remainder rr) (value rm) None, cr).
Proof.
  intros Hl Hrl Hm Hrm Hc Hrc.
  change (Right_parse (parse fuel l)
            (Left_parse (parse fuel m) (parse fuel closing)) s c =
          Some (mkParseResult Ok (remainder rr) (value rm) None, cr)).
  rewrite (Right_parse_ok _ _ _ _ rl cl
             (mkParseResult Ok (remainder rr) (value rm) None) cr);
    [reflexivity|assumption|assumption| |].
  - eapply Left_parse_ok; eauto.
  - now destruct (ok_defined_Ok rm Hrm) as [_ Hv].
Qed.

(** X21. [Surrounded(left, middle, right)] of [pl0.ts] (with [left] also
    closing when no [right] is given) runs the three parsers in a row.
    When all succeed the result is [Ok] with the value of [middle] alone
    and the remainder of the closing parser. When it returns [Error], the
    remainder is the whole input: a failure inside the brackets shows no
    consumed input. *)
Theorem Surrounded_keeps_middle :
  (forall fuel l m given s c rl cl rm cm rr cr,
      parse fuel l s c = Some (rl, cl) -> ok_defined rl = true ->
      parse fuel m (remainder rl) cl = Some (rm, cm) ->
      ok_defined rm = true ->
      parse fuel (match given with Some r => r | None => l end)
        (remainder rm) cm = Some (rr, cr) ->
      ok_defined rr = true ->
      parse fuel (Pl0.Surrounded l m given) s c =
      Some (mkParseResult Ok (remainder rr) (value rm) None, cr)) /\
  (forall fuel l m given s c r c',
      parse fuel (Pl0.Surrounded l m given) s c = Some (r, c') ->
      state r = Error ->
      remainder r = s).
Proof.
  split.
  - intros fuel l m given s c rl cl rm cm rr cr Hl Hrl Hm Hrm Hc Hrc.
    unfold Pl0.Surrounded. eapply Surrounded_parse_ok; eauto.
  - intros fuel l m given s c r c' H Herr.
    apply (resets_parse fuel (Pl0.Surrounded l m given) I s c r c' H Herr).
Qed.

Lemma Surrounded_keeps_middle_witness :
  parse 0 (Pl0.Surrounded (Match "(") Identifier (Some (Match ")")))
    "(x)+1" [] =
    Some (mkParseResult Ok "+1" (VStr "x") None, []) /\
  "(x+1" = "(x+1".
Proof.
  split.
  - apply (proj1 Surrounded_keeps_middle 0 (Match "(") Identifier
             (Some (Match ")")) "(x)+1" []
             (mkParseResult Ok "x)+1" (VStr "(") None) []
             (mkParseResult Ok ")+1" (VStr "x") None) []
             (mkParseResult Ok "+1" (VStr ")") None) []);
      reflexivity.
  - apply (proj2 Surrounded_keeps_middle 0 (Match "(") Identifier
             (Some (Match ")")) "(x+1" []
             (mkParseResult Error "(x+1" VUndefined (Some "Couldn't match"))
             []);
      reflexivity.
Defined.

(** X22. The class [SpaceSurrounded(P)] of [pl0.ts] skips the spaces
    before and after what [P] parses. On [a] spaces followed by a body not
    beginning with a space, when [P] succeeds on the body and leaves [b]
    spaces and a rest not beginning with a space, the result is [Ok] with
    the value of [P] and the rest as remainder. When [P] does not succeed
    on the body, the result is [Error] with the error of [P], and the
    remainder is the input with its leading spaces still there. *)
Theorem Pl0_SpaceSurrounded_skips_spaces :
  (forall fuel P a body c r c1 b rest,
      at_index body 0 <> Some " " ->
      parse fuel P body c = Some (r, c1) -> ok_defined r = true ->
      remainder r = spaces b ++ rest ->
      at_index rest 0 <> Some " " ->
      a < fuel -> b < fuel ->
      parse fuel (Pl0.SpaceSurrounded P) (spaces a ++ body) c =
      Some (mkParseResult Ok rest (value r) None, c1)) /\
  (forall fuel P a body c r c1,
      at_index body 0 <> Some " " ->
      parse fuel P body c = Some (r, c1) -> ok_defined r = false ->
      a < fuel ->
      parse fuel (Pl0.SpaceSurrounded P) (spaces a ++ body) c =
      Some (mkParseResult Error (spaces a ++ body) VUndefined (error r),
            c1)).
Proof.
  split.
  - intros fuel P a body c r c1 b rest Hbody HP Hr Hrem Hrest Ha Hb.
    unfold Pl0.SpaceSurrounded, Pl0.Surrounded.
    rewrite (Surrounded_parse_ok fuel WhiteSpaces P WhiteSpaces
               (spaces a ++ body) c
               (mkParseResult Ok body (VArr (repeat VNull a)) None) c
               r c1
               (mkParseResult Ok rest (VArr (repeat VNull b)) None) c1);
      try reflexivity; try assumption.
    + now apply WhiteSpaces_strip.
    + rewrite Hrem. now apply WhiteSpaces_strip.
  - intros fuel P a body c r c1 Hbody HP Hr Ha.
    unfold Pl0.SpaceSurrounded, Pl0.Surrounded.
    change (Right_parse (parse fuel WhiteSpaces)
              (Left_parse (parse fuel P) (parse fuel WhiteSpaces))
              (spaces a ++ body) c =
            Some (mkParseResult Error (spaces a ++ body) VUndefined
                    (error r), c1)).
    unfold Right_parse.
    rewrite (PMap_parse_rejected _ _ _ _
               (mkParseResult Error (spaces a ++ body) VUndefined (error r))
               c1);
      [reflexivity| |reflexivity].
    apply Pair_parse_second_rejected with
      (r1 := mkParseResult Ok body (VArr (repeat VNull a)) None)
      (c1 := c)
      (r2 := mkParseResult Error body VUndefined (error r));
      try reflexivity.
    + now apply WhiteSpaces_strip.
    + cbn [remainder]. unfold Left_parse.
      rewrite (PMap_parse_rejected _ _ _ _
                 (mkParseResult Error body VUndefined (error r)) c1);
        [reflexivity| |reflexivity].
      now apply Pair_parse_first_rejected.
Qed.

Lemma Pl0_SpaceSurrounded_skips_spaces_witness :
  parse 3 (Pl0.SpaceSurrounded (Match ":=")) (spaces 1 ++ ":=  1") [] =
    Some (mkParseResult Ok "1" (VStr ":=") None, []) /\
  parse 3 (Pl0.SpaceSurrounded (Match ":=")) (spaces 2 ++ "=1") [] =
    Some (mkParseResult Error (spaces 2 ++ "=1") VUndefined
            (Some "Couldn't match"), []).
Proof.
  split.
  - apply (proj1 Pl0_SpaceSurrounded_skips_spaces 3 (Match ":=") 1
             ":=  1" [] (mkParseResult Ok "  1" (VStr ":=") None) []
             2 "1").
    + simpl. discriminate.
    + reflexivity.
    + reflexivity.
    + reflexivity.
    + simpl. discriminate.
    + lia.
    + lia.
  - apply (proj2 Pl0_SpaceSurrounded_skips_spaces 3 (Match ":=") 2
             "=1" [] (mkParseResult Error "=1" VUndefined
                        (Some "Couldn't match")) []).
    + simpl. discriminate.
    + reflexivity.
    + reflexivity.
    + lia.
Defined.

(** X23. [BinaryOp(operand, op)] of [pl0.ts] parses operand, operator,
    operand. When the three succeed in a row the result is [Ok] with the
    three values as one flat triple and the remainder of the second
    operand. When it returns [Error], the remainder is the whole input,
    also when the first operand and the operator had already been
    parsed. *)
Theorem BinaryOp_flat_triple :
  (forall fuel operand op s c r1 c1 r2 c2 r3 c3,
      parse fuel operand s c = Some (r1, c1) -> ok_defined r1 = true ->
      parse fuel op (remainder r1) c1 = Some (r2, c2) ->
      ok_defined r2 = true ->
      parse fuel operand (remainder r2) c2 = Some (r3, c3) ->
      ok_defined r3 = true ->
      parse fuel (Pl0.BinaryOp operand op) s c =
      Some (mkParseResult Ok (remainder r3)
              (VArr [value r1; value r2; value r3]) None, c3)) /\
  (forall fuel operand op s c r c',
      parse fuel (Pl0.BinaryOp operand op) s c = Some (r, c') ->
      state r = Error ->
      remainder r = s).
Proof.
  split.
  - intros fuel operand op s c r1 c1 r2 c2 r3 c3 H1 Hr1 H2 Hr2 H3 Hr3.
    unfold Pl0.BinaryOp.
    change (PMap_parse
              (Pair_parse (parse fuel operand)
                 (Pair_parse (parse fuel op) (parse fuel operand)))
              Pl0.flatten_fn s c =
            Some (mkParseResult Ok (remainder r3)
                    (VArr [value r1; value r2; value r3]) None, c3)).
    rewrite (PMap_parse_ok _ _ _ _
               (mkParseResult Ok (remainder r3)
                  (VArr [value r1; VArr [value r2; value r3]]) None) c3);
      [reflexivity| |reflexivity].
    apply Pair_parse_ok with
      (r1 := r1) (c1 := c1)
      (r2 := mkParseResult Ok (remainder r3)
               (VArr [value r2; value r3]) None);
      try assumption; try reflexivity.
    now apply Pair_parse_ok with (c1 := c2).
  - intros fuel operand op s c r c' H Herr.
    apply (resets_parse fuel (Pl0.BinaryOp operand op)
             (I : ResetsOnFailure (Pl0.BinaryOp operand op))
             s c r c' H Herr).
Qed.

Lemma BinaryOp_flat_triple_witness :
  parse 0 (Pl0.BinaryOp Identifier (Match "<=")) "a<=b;" [] =
    Some (mkParseResult Ok ";" (VArr [VStr "a"; VStr "<="; VStr "b"]) None,
          []) /\
  "a<=1" = "a<=1".
Proof.
  split.
  - apply (proj1 BinaryOp_flat_triple 0 Identifier (Match "<=") "a<=b;" []
             (mkParseResult Ok "<=b;" (VStr "a") None) []
             (mkParseResult Ok "b;" (VStr "<=") None) []
             (mkParseResult Ok ";" (VStr "b") None) []);
      reflexivity.
  - apply (proj2 BinaryOp_flat_triple 0 Identifier (Match "<=") "a<=1" []
             (mkParseResult Error "a<=1" VUndefined
                (Some "Couldn't parse identifier")) []);
      reflexivity.
Defined.

(** ** Records of whole parser trees *)

(** X24. Away from [Pred] the library keeps the invariant of its records:
    every record returned by a parser built from the library without a
    [Pred] node (map functions returning defined values for defined
    arguments) has, with outcome [Ok], a defined value and no error, and
    with outcome [Error], an error and no value. *)
Theorem invariant_kept_without_Pred fuel (p : Parser) (s : string)
    (c : Console) (r : ParseResult) (c' : Console) :
  PredFree p ->
  parse fuel p s c = Some (r, c') ->
  match state r with
  | Ok => is_defined (value r) = true /\ error r = None
  | Error => error r <> None /\ value r = VUndefined
  end.
Proof.
  intros HB H.
  pose proof (record_invariant_without_Pred fuel p HB s c r c' H) as Hinv.
  unfold record_invariant in Hinv.
  destruct (state r); apply andb_true_iff in Hinv; destruct Hinv as [H1 H2].
  - split; [assumption|]. now destruct (error r).
  - split; [now destruct (error r)|]. now destruct (value r).
Qed.

Lemma invariant_kept_without_Pred_witness :
  error (mkParseResult Error "b" VUndefined (Some "Couldn't match"))
    <> None /\
  value (mkParseResult Error "b" VUndefined (Some "Couldn't match"))
    = VUndefined.
Proof.
  apply (invariant_kept_without_Pred 0
           (FlatMap Item (fun _ => Right (Match "x") Item)) "ab" []
           (mkParseResult Error "b" VUndefined (Some "Couldn't match"))
           []).
  - simpl. auto.
  - reflexivity.
Defined.

(** X25. For a parser built from the library, the remainder of every
    record it returns, of a failure as of a success, is a suffix of the
    input: also [Sequence] and [FlatMap], which report failures with an
    advanced remainder, never report a remainder that is not part of the
    input. *)
Theorem every_remainder_is_suffix fuel (p : Parser) (s : string)
    (c : Console) (r : ParseResult) (c' : Console) :
  LibraryBuilt p ->
  parse fuel p s c = Some (r, c') ->
  exists consumed, s = consumed ++ remainder r.
Proof. intros HB H. exact (suffix_parse fuel p HB s c r c' H). Qed.

Lemma every_remainder_is_suffix_witness :
  exists consumed, "ac" = consumed ++ "c".
Proof.
  apply (every_remainder_is_suffix 0 (Sequence [Match "a"; Match "b"])
           "ac" []
           (mkParseResult Error "c" VUndefined
              (Some "Couldn't fulfill sequence of parsers")) []).
  - simpl. auto.
  - reflexivity.
Defined.

(** ** The suffix invariant of successes, combinator by combinator *)

Lemma suffix_fn_success P : suffix_fn P -> success_suffix_fn P.
Proof. intros HP s c r c' H _. eapply HP; eauto. Qed.

Section Success_suffix_combinators.

Variables P P1 P2 : ParseFn.
Hypothesis HP : success_suffix_fn P.
Hypothesis HP1 : success_suffix_fn P1.
Hypothesis HP2 : success_suffix_fn P2.

Lemma success_suffix_Inspect : success_suffix_fn (Inspect_parse P).
Proof.
  intros s c r c' H Hok. unfold Inspect_parse in H. eff_cases. eauto.
Qed.

Lemma success_suffix_Pair : success_suffix_fn (Pair_parse P1 P2).
Proof.
  intros s c r c' H Hok. unfold Pair_parse in H.
  apply bind_Some in H. destruct H as (r1 & c1 & H1 & H).
  destruct (ok_defined r1) eqn:Hr1.
  - apply bind_Some in H. destruct H as (r2 & c2 & H2 & H).
    destruct (ok_defined r2) eqn:Hr2;
      apply ret_Some in H; destruct H as [<- <-]; [|discriminate Hok].
    cbn [remainder].
    destruct (ok_defined_Ok r1 Hr1) as [Hs1 _].
    destruct (ok_defined_Ok r2 Hr2) as [Hs2 _].
    eapply is_suffix_trans; eauto.
  - apply ret_Some in H. destruct H as [<- <-]. discriminate Hok.
Qed.

Lemma success_suffix_PMap map_fn : success_suffix_fn (PMap_parse P map_fn).
Proof.
  intros s c r c' H Hok. unfold PMap_parse in H.
  apply bind_Some in H. destruct H as (r0 & c0 & H0 & H).
  destruct (ok_defined r0);
    apply ret_Some in H; destruct H as [<- <-]; cbn [remainder state] in *;
    eauto.
Qed.

Lemma success_suffix_ZeroOrMore_loop fuel :
  forall s result c r c',
    ZeroOrMore_loop P fuel s result c = Some (r, c') ->
    is_suffix (remainder r) s.
Proof.
  induction fuel as [|fuel IH]; intros s result c r c' H; simpl in H.
  - discriminate.
  - apply bind_Some in H. destruct H as (r0 & c0 & H0 & H).
    destruct (ok_defined r0) eqn:Hr0.
    + destruct (ok_defined_Ok r0 Hr0) as [Hs0 _].
      eapply is_suffix_trans; [eapply IH; eassumption|eauto].
    + apply ret_Some in H. destruct H as [<- <-]. apply is_suffix_refl.
Qed.

Lemma success_suffix_ZeroOrMore fuel :
  success_suffix_fn (ZeroOrMore_parse fuel P).
Proof.
  intros s c r c' H _. eapply success_suffix_ZeroOrMore_loop; eauto.
Qed.

Lemma success_suffix_Pred pred_fn :
  success_suffix_fn (Pred_parse P pred_fn).
Proof.
  intros s c r c' H Hok. unfold Pred_parse in H.
  apply bind_Some in H. destruct H as (r0 & c0 & H0 & H).
  destruct (ok_defined r0 && pred_fn (value r0));
    apply ret_Some in H; destruct H as [<- <-]; cbn [remainder state] in *.
  - eauto.
  - apply is_suffix_refl.
Qed.

Lemma success_suffix_FlatMap (K : JsVal -> ParseFn) :
  (forall v, success_suffix_fn (K v)) ->
  success_suffix_fn (FlatMap_parse P K).
Proof.
  intros HK s c r c' H Hok. unfold FlatMap_parse in H.
  apply bind_Some in H. destruct H as (r0 & c0 & H0 & H).
  destruct (ok_defined r0) eqn:Hr0.
  - destruct (ok_defined_Ok r0 Hr0) as [Hs0 _].
    eapply is_suffix_trans; [eapply HK; eassumption|eauto].
  - apply ret_Some in H. destruct H as [<- <-].
    cbn [remainder state] in *. eauto.
Qed.

End Success_suffix_combinators.

Lemma success_suffix_Either Ps :
  Forall success_suffix_fn Ps -> success_suffix_fn (Either_parse Ps).
Proof.
  induction 1 as [|P Ps HP _ IH]; intros s c r c' H Hok; simpl in H.
  - apply ret_Some in H. destruct H as [<- <-]. discriminate Hok.
  - apply bind_Some in H. destruct H as (r0 & c0 & H0 & H).
    destruct (ok_defined r0) eqn:Hr0.
    + apply ret_Some in H. destruct H as [<- <-].
      cbn [remainder state] in *. eauto.
    + eauto.
Qed.

Lemma success_suffix_Sequence Ps :
  Forall success_suffix_fn Ps -> success_suffix_fn (Sequence_parse Ps).
Proof.
  induction 1 as [|P Ps HP _ IH]; intros s c r c' H Hok; simpl in H.
  - apply ret_Some in H. destruct H as [<- <-]. apply is_suffix_refl.
  - apply bind_Some in H. destruct H as (r0 & c0 & H0 & H).
    destruct (state r0) eqn:Hs0.
    + eapply is_suffix_trans; [eapply IH; eassumption|eauto].
    + apply ret_Some in H. destruct H as [<- <-]. discriminate Hok.
Qed.

Lemma zzz_is_no_suffix : ~ is_suffix "zzz" "".
Proof.
  intros [consumed H]. apply (f_equal String.length) in H.
  rewrite length_append in H. simpl in H. lia.
Qed.

(** C7 as stated fails in its second half: a sub-parser that fails with a
    remainder that is no part of its input has the suffix invariant (it
    never succeeds), and [Optional] over it does not: it returns [Ok] with
    that remainder. *)
Lemma Optional_breaks_success_suffix :
  ~ (forall fuel P,
        success_suffix_fn (parse fuel P) ->
        success_suffix_fn (parse fuel (Optional P))).
Proof.
  intros H.
  apply zzz_is_no_suffix.
  apply (H 0
           (UserParser
              (fun _ => mkParseResult Error "zzz" VUndefined (Some "no")))
           ltac:(intros s c r c' Hp Hok; simpl in Hp; apply ret_Some in Hp;
                 destruct Hp as [<- _]; discriminate Hok)
           "" [] (mkParseResult Ok "zzz" VNull None) []);
    reflexivity.
Qed.

(** C7, amended. For a parser composed of the library's leaf and
    structural combinators (with any map, predicate and bind functions, a
    bind function returning such parsers) and every input [s]: when
    [parse] returns a record with outcome [Ok], the remainder is a suffix of
    [s], and so is at most as long as [s]. Every combinator other than
    [Optional] preserves this invariant of successes when its sub-parsers
    have it, whatever the sub-parsers are. [Optional] keeps the remainder
    of a sub-parser that failed: it has the invariant when the remainder of
    every record of its sub-parser, of a failure too, is a suffix of the
    input. *)
Theorem suffix_invariant_of_combinators :
  (forall fuel p s c r c',
      LibraryBuilt p ->
      parse fuel p s c = Some (r, c') ->
      state r = Ok ->
      is_suffix (remainder r) s /\
      String.length (remainder r) <= String.length s) /\
  (forall P, success_suffix_fn P -> success_suffix_fn (Inspect_parse P)) /\
  (forall P1 P2,
      success_suffix_fn P1 -> success_suffix_fn P2 ->
      success_suffix_fn (Pair_parse P1 P2) /\
      success_suffix_fn (Left_parse P1 P2) /\
      success_suffix_fn (Right_parse P1 P2)) /\
  (forall P map_fn,
      success_suffix_fn P -> success_suffix_fn (PMap_parse P map_fn)) /\
  (forall P pred_fn,
      success_suffix_fn P -> success_suffix_fn (Pred_parse P pred_fn)) /\
  (forall fuel P,
      success_suffix_fn P ->
      success_suffix_fn (ZeroOrMore_parse fuel P) /\
      success_suffix_fn (OneOrMore_parse fuel P)) /\
  (forall Ps,
      Forall success_suffix_fn Ps ->
      success_suffix_fn (Either_parse Ps) /\
      success_suffix_fn (FixedEither_parse Ps) /\
      success_suffix_fn (Sequence_parse Ps)) /\
  (forall P K,
      success_suffix_fn P -> (forall v, success_suffix_fn (K v)) ->
      success_suffix_fn (FlatMap_parse P K)) /\
  (forall P, suffix_fn P -> success_suffix_fn (Optional_parse P)).
Proof.
  split; [|split; [|split; [|split; [|split; [|split; [|split; [|split]]]]]]].
  - intros fuel p s c r c' HB H _.
    assert (Hs : is_suffix (remainder r) s) by (eapply suffix_parse; eauto).
    split; [assumption|]. now apply is_suffix_length.
  - intros P HP. now apply success_suffix_Inspect.
  - intros P1 P2 H1 H2. split; [|split].
    + now apply success_suffix_Pair.
    + apply success_suffix_PMap. now apply success_suffix_Pair.
    + apply success_suffix_PMap. now apply success_suffix_Pair.
  - intros P map_fn HP. now apply success_suffix_PMap.
  - intros P pred_fn HP. now apply success_suffix_Pred.
  - intros fuel P HP. split.
    + now apply success_suffix_ZeroOrMore.
    + apply success_suffix_PMap. apply success_suffix_Pair; [assumption|].
      now apply success_suffix_ZeroOrMore.
  - intros Ps HPs. split; [|split].
    + now apply success_suffix_Either.
    + now apply success_suffix_Either.
    + now apply success_suffix_Sequence.
  - intros P K HP HK. now apply success_suffix_FlatMap.
  - intros P HP. apply suffix_fn_success. now apply suffix_Optional.
Qed.

Lemma suffix_invariant_of_combinators_witness :
  (is_suffix "World" "Hello World" /\
   String.length "World" <= String.length "Hello World") /\
  success_suffix_fn
    (Pair_parse (parse 0 (Match "Hello")) (parse 0 (Optional Item))).
Proof.
  pose proof suffix_invariant_of_combinators
    as (HBuilt & _ & HPair & _ & _ & _ & _ & _ & HOptional).
  split.
  - apply (HBuilt 0 (Pair (Match "Hello") Item) "Hello World" []
             (mkParseResult Ok "World" (VArr [VStr "Hello"; VStr " "]) None)
             []).
    + simpl. auto.
    + reflexivity.
    + reflexivity.
  - apply (HPair (parse 0 (Match "Hello")) (parse 0 (Optional Item))).
    + intros s c r c' H _. simpl in H. apply ret_Some in H.
      destruct H as [<- _]. apply suffix_Match.
    + apply (HOptional (parse 0 Item)).
      intros s c r c' H. simpl in H. apply ret_Some in H.
      destruct H as [<- _]. apply suffix_Item.
Defined.
